(** * Cable instance table and SyN registration method

    [InstanceTable] embeds [_wrap_::Instances] of
    [Utilities/Cable/WrapTclFacility/wrapInstanceTable.cxx]: the table that
    maps Tcl-visible names to C++ objects.

    [SyN] embeds the class that the header
    [Modules/Registration/RegistrationMethodsv4/include/itkSyNImageRegistrationMethod.h]
    declares, and the convergence monitor its driver consults.

    [InstanceTableProps] and [SyNProps] hold what is proved of them. *)

From Stdlib Require Import Ascii QArith Qabs.
From stdpp Require Import gmap strings list fin_maps.

Set Default Proof Using "Type".

(* ===================================================================== *)
(** ** The instance table                                                 *)
(* ===================================================================== *)

Module InstanceTable.

(** The wrapper facility's [String] is [std::string]; it is [string] here
    throughout. *)

(** [void*]: the address of a wrapped object. *)
Definition ObjectPtr := N.

(** [const Type*]: the address of a type representation.  The table only
    uses it as the key of [m_DeleteFunctionMap]. *)
Definition TypePtr := N.

(** [DeleteFunction] is a pointer to a function taking the [void*] to
    destroy. *)
Definition DeleteFunction := N.

(** [Tcl_Interp*]. *)
Definition Tcl_Interp := N.

(** What the table does to the world outside itself: it calls a registered
    delete function on an object and it removes a Tcl command.  Both are
    calls into code that is not the table's; they are recorded, oldest
    first, in the order the code performs them. *)
Inductive Event :=
| CallDeleteFunction (f : DeleteFunction) (object : ObjectPtr)
| Tcl_DeleteCommand (interp : Tcl_Interp) (name : string).

Inductive Exception :=
| UndefinedInstanceNameException (name : string)
| UndefinedObjectTypeException (what : string).

(** [CvQualifiedType] is declared in a header that is not among the
    sources.  The table stores values of it and asks them for [GetType()],
    nothing else; [CvQualifiedType_default] is what its default constructor
    builds ([std::map::operator[]] needs one).  [GetType_] is
    [CvQualifiedType::GetType]; the underscore keeps it apart from
    [Instances::GetType]. *)
Class CvQualifiedTypeInterface (CvQualifiedType : Type) := {
  GetType_ : CvQualifiedType → TypePtr;
  CvQualifiedType_default : CvQualifiedType
}.

(** [sprintf("%x", n)]: the digits of [n] to the base 16, small letters, no
    leading zeros. *)
Definition hexDigit (d : N) : ascii :=
  match d with
  | 0 => "0" | 1 => "1" | 2 => "2" | 3 => "3" | 4 => "4" | 5 => "5"
  | 6 => "6" | 7 => "7" | 8 => "8" | 9 => "9" | 10 => "a" | 11 => "b"
  | 12 => "c" | 13 => "d" | 14 => "e" | _ => "f"
  end%N%char.

Fixpoint hexDigits (digits : nat) (n : N) (acc : string) : string :=
  match digits with
  | O => acc
  | S digits' =>
      let acc' := String (hexDigit (n mod 16)%N) acc in
      if (n / 16 =? 0)%N then acc' else hexDigits digits' (n / 16)%N acc'
  end.

Definition sprintf_x (n : N) : string := hexDigits 8 n "".

Section Instances.

Context `{CvQualifiedTypeInterface CvQualifiedType}.

(** [Reference(object, type)] with its two getters; [GetObject_] is
    [Reference::GetObject]. *)
Record Reference := mkReference {
  GetObject_ : ObjectPtr;
  GetCvQualifiedType : CvQualifiedType
}.

Definition Reference_default : Reference :=
  mkReference 0%N CvQualifiedType_default.

(** The data members of [Instances], with the trace of outside calls.
    [m_TempNameNumber] is printed with [%x], so it is taken to be an
    [unsigned int] of 32 bits. *)
Record Instances := mkInstances {
  m_Interpreter : Tcl_Interp;
  m_TempNameNumber : N;
  m_InstanceMap : gmap string Reference;
  m_AddressToNameMap : gmap ObjectPtr string;
  m_DeleteFunctionMap : gmap TypePtr DeleteFunction;
  trace : list Event
}.

Definition set_InstanceMap (f : gmap string Reference → gmap string Reference)
    (s : Instances) : Instances :=
  mkInstances (m_Interpreter s) (m_TempNameNumber s) (f (m_InstanceMap s))
    (m_AddressToNameMap s) (m_DeleteFunctionMap s) (trace s).

Definition set_AddressToNameMap (f : gmap ObjectPtr string → gmap ObjectPtr string)
    (s : Instances) : Instances :=
  mkInstances (m_Interpreter s) (m_TempNameNumber s) (m_InstanceMap s)
    (f (m_AddressToNameMap s)) (m_DeleteFunctionMap s) (trace s).

Definition set_DeleteFunctionMap (f : gmap TypePtr DeleteFunction → gmap TypePtr DeleteFunction)
    (s : Instances) : Instances :=
  mkInstances (m_Interpreter s) (m_TempNameNumber s) (m_InstanceMap s)
    (m_AddressToNameMap s) (f (m_DeleteFunctionMap s)) (trace s).

Definition set_TempNameNumber (f : N → N) (s : Instances) : Instances :=
  mkInstances (m_Interpreter s) (f (m_TempNameNumber s)) (m_InstanceMap s)
    (m_AddressToNameMap s) (m_DeleteFunctionMap s) (trace s).

Definition emit (e : Event) (s : Instances) : Instances :=
  mkInstances (m_Interpreter s) (m_TempNameNumber s) (m_InstanceMap s)
    (m_AddressToNameMap s) (m_DeleteFunctionMap s) (trace s ++ [e]).

(** *** Member functions run in a state-and-exception monad

    A member function takes the table and gives back the table it leaves
    behind, together with either the exception it threw or its result.  A
    [throw] keeps every change made before it, as in C++. *)

Definition Method (A : Type) : Type := Instances → Instances * (Exception + A).

Definition ret {A} (a : A) : Method A := λ s, (s, inr a).

Definition bind {A B} (m : Method A) (k : A → Method B) : Method B :=
  λ s, match m s with
       | (s', inl e) => (s', inl e)
       | (s', inr a) => k a s'
       end.

Definition throw {A} (e : Exception) : Method A := λ s, (s, inl e).
Definition gets {A} (f : Instances → A) : Method A := λ s, (s, inr (f s)).
Definition modify (f : Instances → Instances) : Method unit := λ s, (f s, inr tt).

#[local] Notation "x <- m ;; k" := (bind m (λ x, k))
  (at level 100, m at next level, right associativity).
#[local] Notation "m ;;; k" := (bind m (λ _, k))
  (at level 100, right associativity).

(** [std::map::operator[]]: the mapped value, inserting a default one when
    the key is absent. *)
Definition InstanceMap_index (name : string) : Method Reference :=
  λ s, match m_InstanceMap s !! name with
       | Some r => (s, inr r)
       | None => (set_InstanceMap (insert name Reference_default) s,
                  inr Reference_default)
       end.

Definition AddressToNameMap_index (object : ObjectPtr) : Method string :=
  λ s, match m_AddressToNameMap s !! object with
       | Some n => (s, inr n)
       | None => (set_AddressToNameMap (insert object EmptyString) s,
                  inr EmptyString)
       end.

(** A default-constructed function pointer is null. *)
Definition DeleteFunctionMap_index (type : TypePtr) : Method DeleteFunction :=
  λ s, match m_DeleteFunctionMap s !! type with
       | Some f => (s, inr f)
       | None => (set_DeleteFunctionMap (insert type 0%N) s, inr 0%N)
       end.

(** [std::map::count]. *)
Definition count {K V} `{Countable K} (m : gmap K V) (k : K) : nat :=
  match m !! k with Some _ => 1 | None => 0 end.

(** The constructor [Instances::Instances], given the interpreter. *)
Definition Instances_new (interp : Tcl_Interp) : Instances :=
  mkInstances interp 0%N ∅ ∅ ∅ [].

Definition Exists (name : string) : Method bool :=
  gets (λ s, bool_decide (0 < count (m_InstanceMap s) name)%nat).

Definition CheckExists (name : string) : Method unit :=
  b <- Exists name ;;
  if negb b then throw (UndefinedInstanceNameException name) else ret tt.

Definition DeleteObject (name : string) : Method unit :=
  CheckExists name ;;;
  r <- InstanceMap_index name ;;
  let type := GetType_ (GetCvQualifiedType r) in
  r' <- InstanceMap_index name ;;
  let object := GetObject_ r' in
  n <- gets (λ s, count (m_DeleteFunctionMap s) type) ;;
  (if bool_decide (n < 1)%nat then throw (UndefinedObjectTypeException "") else ret tt) ;;;
  modify (set_AddressToNameMap (delete object)) ;;;
  f <- DeleteFunctionMap_index type ;;
  modify (emit (CallDeleteFunction f object)) ;;;
  modify (set_InstanceMap (delete name)) ;;;
  interp <- gets m_Interpreter ;;
  modify (emit (Tcl_DeleteCommand interp name)).

Definition SetObject (name : string) (object : ObjectPtr)
    (type : CvQualifiedType) : Method unit :=
  b <- Exists name ;;
  (if b then DeleteObject name else ret tt) ;;;
  modify (set_InstanceMap (insert name (mkReference object type))) ;;;
  modify (set_AddressToNameMap (insert object name)).

Definition GetObject (name : string) : Method ObjectPtr :=
  CheckExists name ;;;
  r <- InstanceMap_index name ;;
  ret (GetObject_ r).

Definition GetType (name : string) : Method CvQualifiedType :=
  CheckExists name ;;;
  r <- InstanceMap_index name ;;
  ret (GetCvQualifiedType r).

Definition RegisterDeleteFunction (type : TypePtr) (func : DeleteFunction)
    : Method unit :=
  modify (set_DeleteFunctionMap (insert type func)).

(** [m_TempNameNumber++] inside the [sprintf] call: the old value is
    printed, the counter goes up by one. *)
Definition CreateTemporary (object : ObjectPtr) (type : CvQualifiedType)
    : Method string :=
  number <- gets m_TempNameNumber ;;
  modify (set_TempNameNumber (λ n, (n + 1) mod 2 ^ 32)%N) ;;;
  let name := "__temp" +:+ sprintf_x number in
  SetObject name object type ;;;
  ret name.

Definition DeleteIfTemporary (name : string) : Method unit :=
  CheckExists name ;;;
  if bool_decide (String.substring 0 6 name = "__temp") then DeleteObject name
  else ret tt.

Definition DeleteCallBack (object : ObjectPtr) : Method unit :=
  n <- gets (λ s, count (m_AddressToNameMap s) object) ;;
  if bool_decide (0 < n)%nat then
    name <- AddressToNameMap_index object ;;
    DeleteObject name
  else ret tt.

(** What a call leaves behind and what it gives back. *)
Definition after {A} (m : Method A) (s : Instances) : Instances := fst (m s).
Definition outcome {A} (m : Method A) (s : Instances) : Exception + A := snd (m s).

(** *** What the table keeps true, and the tables that can arise *)

(** Every entry of the address map leads to a registered name, and the
    object of that name is the entry's address. *)
Definition AddressesNamed (s : Instances) : Prop :=
  ∀ object name, m_AddressToNameMap s !! object = Some name →
    ∃ r, m_InstanceMap s !! name = Some r ∧ GetObject_ r = object.

(** A call of one of the member functions, with its arguments. *)
Inductive Call :=
| CallSetObject (name : string) (object : ObjectPtr) (type : CvQualifiedType)
| CallDeleteObject (name : string)
| CallExists (name : string)
| CallGetObject (name : string)
| CallGetType (name : string)
| CallRegisterDeleteFunction (type : TypePtr) (func : DeleteFunction)
| CallCreateTemporary (object : ObjectPtr) (type : CvQualifiedType)
| CallDeleteIfTemporary (name : string)
| CallDeleteCallBack (object : ObjectPtr).

(** The table a call leaves behind, whether it returned or threw: the
    caller that catches the exception goes on with that table. *)
Definition perform (s : Instances) (c : Call) : Instances :=
  match c with
  | CallSetObject name object type => after (SetObject name object type) s
  | CallDeleteObject name => after (DeleteObject name) s
  | CallExists name => after (Exists name) s
  | CallGetObject name => after (GetObject name) s
  | CallGetType name => after (GetType name) s
  | CallRegisterDeleteFunction type func =>
      after (RegisterDeleteFunction type func) s
  | CallCreateTemporary object type => after (CreateTemporary object type) s
  | CallDeleteIfTemporary name => after (DeleteIfTemporary name) s
  | CallDeleteCallBack object => after (DeleteCallBack object) s
  end.

(** The table after a sequence of calls on a freshly constructed one. *)
Definition history (interp : Tcl_Interp) (calls : list Call) : Instances :=
  foldl perform (Instances_new interp) calls.

End Instances.

Arguments Reference : clear implicits.
Arguments Instances : clear implicits.
Arguments Method : clear implicits.

(** *** A concrete table for the examples

    A cv-qualified type is taken to be the address of its type
    representation with the two qualifier flags. *)
Record ExampleCvType := mkExampleCvType {
  ex_type : TypePtr;
  ex_const : bool;
  ex_volatile : bool
}.

#[export] Instance ExampleCvType_interface : CvQualifiedTypeInterface ExampleCvType :=
  {| GetType_ := ex_type;
     CvQualifiedType_default := mkExampleCvType 0%N false false |}.

(** The type at address 16, unqualified. *)
Definition ex_int : ExampleCvType := mkExampleCvType 16%N false false.

(** A fresh table in which object 1 was registered as ["a"]; no delete
    function is known for its type. *)
Definition ex_table : Instances ExampleCvType :=
  after (SetObject "a" 1%N ex_int) (Instances_new 7%N).

(** The same after [RegisterDeleteFunction] for that type. *)
Definition ex_table_deletable : Instances ExampleCvType :=
  after (RegisterDeleteFunction 16%N 400%N) ex_table.

(** [ex_table_deletable] with object 1 registered a second time, as ["b"]. *)
Definition ex_table_alias : Instances ExampleCvType :=
  after (SetObject "b" 1%N ex_int) ex_table_deletable.

End InstanceTable.

(* ===================================================================== *)
(** ** The SyN registration method                                        *)
(* ===================================================================== *)

Module SyN.
#[local] Open Scope Q_scope.

(** [RealType] is the transform's scalar type ([double] for the default
    [TTransform]); a rational stands for the real number it holds. *)
Definition RealType := Q.

Definition SizeValueType := N.

(** [Array<SizeValueType>]. *)
Definition NumberOfIterationsArrayType := list SizeValueType.

(** *** The class as the header declares it *)

Section Method.

(** [TransformPointer] is a smart pointer to [TTransform], a template
    argument. *)
Context {TransformPointer : Type}.

(** The private data members, in the header's order. *)
Record SyNImageRegistrationMethod := mkSyNImageRegistrationMethod {
  m_LearningRate : RealType;
  m_GaussianSmoothingVarianceForTheUpdateField : RealType;
  m_GaussianSmoothingVarianceForTheTotalField : RealType;
  m_MiddleToMovingTransform : TransformPointer;
  m_MiddleToFixedTransform : TransformPointer;
  m_ConvergenceThreshold : RealType;
  m_NumberOfIterationsPerLevel : NumberOfIterationsArrayType
}.

(** [itkSetMacro] and [itkGetConstMacro]/[itkGetConstReferenceMacro], one
    pair for each of the five public [Set/Get] comments of the header. *)
Definition SetLearningRate (v : RealType) (d : SyNImageRegistrationMethod) :=
  mkSyNImageRegistrationMethod v
    (m_GaussianSmoothingVarianceForTheUpdateField d)
    (m_GaussianSmoothingVarianceForTheTotalField d)
    (m_MiddleToMovingTransform d) (m_MiddleToFixedTransform d)
    (m_ConvergenceThreshold d) (m_NumberOfIterationsPerLevel d).
Definition GetLearningRate := m_LearningRate.

Definition SetNumberOfIterationsPerLevel (v : NumberOfIterationsArrayType)
    (d : SyNImageRegistrationMethod) :=
  mkSyNImageRegistrationMethod (m_LearningRate d)
    (m_GaussianSmoothingVarianceForTheUpdateField d)
    (m_GaussianSmoothingVarianceForTheTotalField d)
    (m_MiddleToMovingTransform d) (m_MiddleToFixedTransform d)
    (m_ConvergenceThreshold d) v.
Definition GetNumberOfIterationsPerLevel := m_NumberOfIterationsPerLevel.

Definition SetConvergenceThreshold (v : RealType) (d : SyNImageRegistrationMethod) :=
  mkSyNImageRegistrationMethod (m_LearningRate d)
    (m_GaussianSmoothingVarianceForTheUpdateField d)
    (m_GaussianSmoothingVarianceForTheTotalField d)
    (m_MiddleToMovingTransform d) (m_MiddleToFixedTransform d)
    v (m_NumberOfIterationsPerLevel d).
Definition GetConvergenceThreshold := m_ConvergenceThreshold.

Definition SetGaussianSmoothingVarianceForTheUpdateField (v : RealType)
    (d : SyNImageRegistrationMethod) :=
  mkSyNImageRegistrationMethod (m_LearningRate d) v
    (m_GaussianSmoothingVarianceForTheTotalField d)
    (m_MiddleToMovingTransform d) (m_MiddleToFixedTransform d)
    (m_ConvergenceThreshold d) (m_NumberOfIterationsPerLevel d).
Definition GetGaussianSmoothingVarianceForTheUpdateField :=
  m_GaussianSmoothingVarianceForTheUpdateField.

Definition SetGaussianSmoothingVarianceForTheTotalField (v : RealType)
    (d : SyNImageRegistrationMethod) :=
  mkSyNImageRegistrationMethod (m_LearningRate d)
    (m_GaussianSmoothingVarianceForTheUpdateField d) v
    (m_MiddleToMovingTransform d) (m_MiddleToFixedTransform d)
    (m_ConvergenceThreshold d) (m_NumberOfIterationsPerLevel d).
Definition GetGaussianSmoothingVarianceForTheTotalField :=
  m_GaussianSmoothingVarianceForTheTotalField.

End Method.

Arguments SyNImageRegistrationMethod : clear implicits.

(** *** The convergence monitor *)

(** [x < y] on rationals, as a boolean. *)
Definition Qlt_bool (x y : Q) : bool :=
  (Qnum x * QDen y <? Qnum y * QDen x)%Z.

(** Modelled from the spec: the Convergence Monitor (section 4.4), which is
    not among the sources.  Its state is the window [W] of the last [w]
    metric values, oldest first, with the two configured numbers. *)
Record Monitor := mkMonitor {
  convergenceWindowSize : nat;
  convergenceThreshold : RealType;
  window : list RealType
}.

(** Modelled from the spec: resetting the monitor's window (step 3 of the
    outer algorithm). *)
Definition reset (m : Monitor) : Monitor :=
  mkMonitor (convergenceWindowSize m) (convergenceThreshold m) [].

(** Modelled from the spec: [record(v)]: push [v]; if [|W| > w], drop the
    oldest. *)
Definition record (v : RealType) (m : Monitor) : Monitor :=
  let W := window m ++ [v] in
  mkMonitor (convergenceWindowSize m) (convergenceThreshold m)
    (if (convergenceWindowSize m <? length W)%nat then drop 1 W else W).

(** The sum of [f i v] over the values [v] of a window, [i] counting their
    positions from [i0]. *)
Fixpoint sumIndexed (f : Q → Q → Q) (i0 : Q) (W : list Q) : Q :=
  match W with
  | [] => 0
  | v :: W' => f i0 v + sumIndexed f (i0 + 1) W'
  end.

(** Modelled from the spec: the slope of the least-squares line through the
    points (index, value) of a window. *)
Definition slope (W : list RealType) : RealType :=
  let n := inject_Z (Z.of_nat (length W)) in
  let Sx := sumIndexed (λ i _, i) 0 W in
  let Sy := sumIndexed (λ _ v, v) 0 W in
  let Sxy := sumIndexed (λ i v, i * v) 0 W in
  let Sxx := sumIndexed (λ i _, i * i) 0 W in
  (n * Sxy - Sx * Sy) / (n * Sxx - Sx * Sx).

(** Modelled from the spec: [query()]: with fewer than [w] values,
    not-converged; otherwise converged when the absolute slope is below the
    threshold.  [true] is converged. *)
Definition query (m : Monitor) : bool :=
  if (length (window m) <? convergenceWindowSize m)%nat then false
  else Qlt_bool (Qabs (slope (window m))) (convergenceThreshold m).

(** Recording a run of values, first to last. *)
Definition recordAll (vs : list RealType) (m : Monitor) : Monitor :=
  foldl (λ m v, record v m) m vs.

(** Modelled from the spec: the error kinds of section 7. *)
Inductive Error :=
| ConfigurationError
| DomainError
| NumericError
| MetricError.

(** Modelled from the spec: what steps a to g of one inner iteration come
    to, as far as the loop's control goes.  They fail (the metric's
    derivative query, a non-finite value, the field inversion), or find
    both update fields numerically zero, or update the fields; in the last
    two cases the metric has a current value. *)
Inductive IterationOutcome :=
| Failed (e : Error)
| BothUpdatesZero (value : RealType)
| FieldsUpdated (value : RealType).

(** Modelled from the spec: step 4 of the outer algorithm (section 4.1) with
    its tie-breaks.  Iteration [n] runs steps a to g, whose outcome in this
    run is [steps n].  An error aborts the run.  With both updates zero the
    driver records the metric and breaks.  Otherwise it records the metric
    value and asks the monitor (step h), and breaks on convergence.  After
    [cap] iterations the level is over.  [ran] counts the iterations already
    run; the result is the number of the iteration at which the level ends,
    with the monitor as it is then. *)
Fixpoint iterate (steps : nat → IterationOutcome) (cap : nat) (ran : nat)
    (m : Monitor) : Error + nat * Monitor :=
  match cap with
  | O => inr (ran, m)
  | S cap' =>
      let n := S ran in
      match steps n with
      | Failed e => inl e
      | BothUpdatesZero v => inr (n, record v m)
      | FieldsUpdated v =>
          let m' := record v m in
          if query m' then inr (n, m') else iterate steps cap' n m'
      end
  end.

(** Modelled from the spec: one level of the driver: reset the monitor
    (step 3), then iterate (step 4).  The result is the iteration at which
    the level ends. *)
Definition runLevel (w : nat) (threshold : RealType) (cap : nat)
    (steps : nat → IterationOutcome) : Error + nat :=
  match iterate steps cap 0 (reset (mkMonitor w threshold [])) with
  | inl e => inl e
  | inr (n, _) => inr n
  end.

(** A run in which every iteration updates the fields and the metric then
    reports [metric n]. *)
Definition updating (metric : nat → RealType) (n : nat) : IterationOutcome :=
  FieldsUpdated (metric n).

(** A contrived metric: [early] lists its values at iterations 1, 2, ...;
    from then on it returns [c]. *)
Definition contrivedMetric (early : list RealType) (c : RealType) (n : nat)
    : RealType :=
  default c (early !! (n - 1)%nat).

(** The four metric values that end at iteration [n]: the window there,
    for a window size of four. *)
Definition windowAt (metric : nat → RealType) (n : nat) : list RealType :=
  [metric (n - 3)%nat; metric (n - 2)%nat; metric (n - 1)%nat; metric n].

End SyN.

Module InstanceTableProps.
Import InstanceTable.

Section Props.
Context `{CvQualifiedTypeInterface CvQualifiedType}.
Implicit Types (s : Instances CvQualifiedType) (name : string).

Lemma Exists_eq s name :
  Exists name s = (s, inr (bool_decide (is_Some (m_InstanceMap s !! name)))).
Proof.
  unfold Exists, gets, count. do 2 f_equal.
  destruct (m_InstanceMap s !! name); apply bool_decide_ext.
  - split; [eauto | lia].
  - split; [lia | intros [? ?]; discriminate].
Qed.

Lemma CheckExists_registered s name r :
  m_InstanceMap s !! name = Some r → CheckExists name s = (s, inr tt).
Proof.
  intros Hr. unfold CheckExists, bind. rewrite Exists_eq, Hr.
  rewrite bool_decide_eq_true_2 by eauto. reflexivity.
Qed.

Lemma CheckExists_unregistered s name :
  m_InstanceMap s !! name = None →
  CheckExists name s = (s, inl (UndefinedInstanceNameException name)).
Proof.
  intros Hr. unfold CheckExists, bind. rewrite Exists_eq, Hr.
  rewrite bool_decide_eq_false_2 by (intros [? ?]; discriminate). reflexivity.
Qed.

Lemma InstanceMap_index_registered s name r :
  m_InstanceMap s !! name = Some r → InstanceMap_index name s = (s, inr r).
Proof. intros Hr. unfold InstanceMap_index. by rewrite Hr. Qed.

(** The three ways through [DeleteObject]. *)
Lemma DeleteObject_unregistered s name :
  m_InstanceMap s !! name = None →
  DeleteObject name s = (s, inl (UndefinedInstanceNameException name)).
Proof.
  intros Hr. unfold DeleteObject, bind.
  by rewrite (CheckExists_unregistered _ _ Hr).
Qed.

Lemma DeleteObject_unknown_type s name r :
  m_InstanceMap s !! name = Some r →
  m_DeleteFunctionMap s !! GetType_ (GetCvQualifiedType r) = None →
  DeleteObject name s = (s, inl (UndefinedObjectTypeException "")).
Proof.
  intros Hr Hf. unfold DeleteObject, bind.
  rewrite (CheckExists_registered _ _ _ Hr).
  rewrite !(InstanceMap_index_registered _ _ _ Hr).
  unfold gets, count. by rewrite Hf.
Qed.

Lemma DeleteObject_registered s name r f :
  m_InstanceMap s !! name = Some r →
  m_DeleteFunctionMap s !! GetType_ (GetCvQualifiedType r) = Some f →
  DeleteObject name s =
    (mkInstances (m_Interpreter s) (m_TempNameNumber s)
       (delete name (m_InstanceMap s))
       (delete (GetObject_ r) (m_AddressToNameMap s))
       (m_DeleteFunctionMap s)
       (trace s ++ [CallDeleteFunction f (GetObject_ r);
                    Tcl_DeleteCommand (m_Interpreter s) name]),
     inr tt).
Proof.
  intros Hr Hf. unfold DeleteObject, bind.
  rewrite (CheckExists_registered _ _ _ Hr).
  rewrite !(InstanceMap_index_registered _ _ _ Hr).
  unfold gets, count. rewrite Hf. simpl.
  unfold DeleteFunctionMap_index. simpl. rewrite Hf. simpl.
  unfold emit, set_InstanceMap, set_AddressToNameMap, modify. simpl.
  by rewrite <- app_assoc.
Qed.

(** A call that throws leaves the whole table as it found it. *)
Lemma DeleteObject_throw_unchanged s name e :
  outcome (DeleteObject name) s = inl e → after (DeleteObject name) s = s.
Proof.
  unfold outcome, after.
  destruct (m_InstanceMap s !! name) as [r|] eqn:Hr.
  - destruct (m_DeleteFunctionMap s !! GetType_ (GetCvQualifiedType r)) as [f|] eqn:Hf.
    + rewrite (DeleteObject_registered _ _ _ _ Hr Hf). discriminate.
    + by rewrite (DeleteObject_unknown_type _ _ _ Hr Hf).
  - by rewrite (DeleteObject_unregistered _ _ Hr).
Qed.

(** C10: [DeleteObject(name)] throws [UndefinedInstanceNameException]
    exactly when no object is registered under [name]; it throws
    [UndefinedObjectTypeException] exactly when an object is registered but
    no delete function is registered for its type, and throws nothing else;
    whenever it throws, the instance map and the address-to-name map are
    what they were.  In the one case left, an object registered under [name]
    with a delete function for its type, it returns: the address and the
    name are erased, the delete function and then [Tcl_DeleteCommand] are
    called, and [Exists(name)] is false afterwards. *)
Theorem DeleteObject_throws_or_removes s name :
  ((∃ n, outcome (DeleteObject name) s = inl (UndefinedInstanceNameException n))
     ↔ outcome (Exists name) s = inr false)
  ∧ (∀ r, m_InstanceMap s !! name = Some r →
          count (m_DeleteFunctionMap s) (GetType_ (GetCvQualifiedType r)) = 0 →
          outcome (DeleteObject name) s = inl (UndefinedObjectTypeException ""))
  ∧ ((∃ what, outcome (DeleteObject name) s = inl (UndefinedObjectTypeException what))
     ↔ ∃ r, m_InstanceMap s !! name = Some r
            ∧ count (m_DeleteFunctionMap s) (GetType_ (GetCvQualifiedType r)) = 0)
  ∧ (∀ e, outcome (DeleteObject name) s = inl e →
          e = UndefinedInstanceNameException name
          ∨ e = UndefinedObjectTypeException "")
  ∧ (∀ e, outcome (DeleteObject name) s = inl e →
          m_InstanceMap (after (DeleteObject name) s) = m_InstanceMap s
          ∧ m_AddressToNameMap (after (DeleteObject name) s) = m_AddressToNameMap s)
  ∧ (outcome (DeleteObject name) s = inr tt
     ↔ ∃ r, m_InstanceMap s !! name = Some r
            ∧ count (m_DeleteFunctionMap s) (GetType_ (GetCvQualifiedType r)) = 1)
  ∧ (∀ r f, m_InstanceMap s !! name = Some r →
          m_DeleteFunctionMap s !! GetType_ (GetCvQualifiedType r) = Some f →
          DeleteObject name s =
            (mkInstances (m_Interpreter s) (m_TempNameNumber s)
               (delete name (m_InstanceMap s))
               (delete (GetObject_ r) (m_AddressToNameMap s))
               (m_DeleteFunctionMap s)
               (trace s ++ [CallDeleteFunction f (GetObject_ r);
                            Tcl_DeleteCommand (m_Interpreter s) name]),
             inr tt))
  ∧ (outcome (DeleteObject name) s = inr tt →
          outcome (Exists name) (after (DeleteObject name) s) = inr false).
Proof.
  assert (Hex : outcome (Exists name) s = inr false ↔ m_InstanceMap s !! name = None).
  { unfold outcome. rewrite Exists_eq. cbn [snd].
    destruct (m_InstanceMap s !! name) as [r|].
    - rewrite bool_decide_eq_true_2 by eauto. split; discriminate.
    - by rewrite bool_decide_eq_false_2 by (intros [? ?]; discriminate). }
  rewrite Hex. unfold outcome, after, count.
  destruct (m_InstanceMap s !! name) as [r|] eqn:Hr.
  - destruct (m_DeleteFunctionMap s !! GetType_ (GetCvQualifiedType r)) as [f|] eqn:Hf.
    + rewrite (DeleteObject_registered _ _ _ _ Hr Hf). cbn [fst snd m_InstanceMap].
      split; [split; [intros [n Hn]; discriminate | discriminate] |].
      split; [intros r' [= <-]; by rewrite Hf |].
      split.
      { split; [intros [w Hw]; discriminate |].
        intros (r' & [= <-] & Hc). by rewrite Hf in Hc. }
      split; [discriminate |]. split; [discriminate |].
      split; [split; [intros _; exists r; by rewrite Hf | done] |].
      split; [intros r' f' [= <-] Hf'; by assert (f' = f) as -> by congruence |].
      intros _. rewrite Exists_eq. cbn [snd m_InstanceMap]. rewrite lookup_delete_eq.
      by rewrite bool_decide_eq_false_2 by (intros [? ?]; discriminate).
    + rewrite (DeleteObject_unknown_type _ _ _ Hr Hf). cbn [fst snd].
      split; [split; [intros [n Hn]; discriminate | discriminate] |].
      split; [done |].
      split; [split; [intros _; exists r; by rewrite Hf | eauto] |].
      split; [intros e [= <-]; by right |]. split; [done |].
      split.
      { split; [discriminate |]. intros (r' & [= <-] & Hc). by rewrite Hf in Hc. }
      split; [intros r' f' [= <-] Hf'; congruence | discriminate].
  - rewrite (DeleteObject_unregistered _ _ Hr). cbn [fst snd].
    split; [split; [done | eauto] |].
    split; [discriminate |].
    split; [split; [intros [w Hw]; discriminate | intros (r' & Hr' & _); discriminate] |].
    split; [intros e [= <-]; by left |]. split; [done |].
    split; [split; [discriminate | intros (r' & Hr' & _); discriminate] |].
    split; [discriminate | discriminate].
Qed.

Lemma GetObject_registered s name r :
  m_InstanceMap s !! name = Some r → GetObject name s = (s, inr (GetObject_ r)).
Proof.
  intros Hr. unfold GetObject, bind.
  rewrite (CheckExists_registered _ _ _ Hr).
  by rewrite (InstanceMap_index_registered _ _ _ Hr).
Qed.

(** The two ways [SetObject] returns, and the one way it throws. *)
Lemma SetObject_fresh s name object type :
  m_InstanceMap s !! name = None →
  SetObject name object type s =
    (mkInstances (m_Interpreter s) (m_TempNameNumber s)
       (<[name := mkReference object type]> (m_InstanceMap s))
       (<[object := name]> (m_AddressToNameMap s))
       (m_DeleteFunctionMap s) (trace s),
     inr tt).
Proof.
  intros Hr. unfold SetObject, bind. rewrite Exists_eq, Hr.
  rewrite bool_decide_eq_false_2 by (intros [? ?]; discriminate).
  reflexivity.
Qed.

Lemma SetObject_replace s name object type r f :
  m_InstanceMap s !! name = Some r →
  m_DeleteFunctionMap s !! GetType_ (GetCvQualifiedType r) = Some f →
  SetObject name object type s =
    (mkInstances (m_Interpreter s) (m_TempNameNumber s)
       (<[name := mkReference object type]> (delete name (m_InstanceMap s)))
       (<[object := name]> (delete (GetObject_ r) (m_AddressToNameMap s)))
       (m_DeleteFunctionMap s)
       (trace s ++ [CallDeleteFunction f (GetObject_ r);
                    Tcl_DeleteCommand (m_Interpreter s) name]),
     inr tt).
Proof.
  intros Hr Hf. unfold SetObject, bind. rewrite Exists_eq, Hr.
  rewrite bool_decide_eq_true_2 by eauto.
  by rewrite (DeleteObject_registered _ _ _ _ Hr Hf).
Qed.

Lemma SetObject_unknown_type s name object type r :
  m_InstanceMap s !! name = Some r →
  m_DeleteFunctionMap s !! GetType_ (GetCvQualifiedType r) = None →
  SetObject name object type s = (s, inl (UndefinedObjectTypeException "")).
Proof.
  intros Hr Hf. unfold SetObject, bind. rewrite Exists_eq, Hr.
  rewrite bool_decide_eq_true_2 by eauto.
  by rewrite (DeleteObject_unknown_type _ _ _ Hr Hf).
Qed.

(** C9, as the code has it: whenever [SetObject(name, object, type)]
    returns, [Exists(name)] is true and [GetObject(name)] is [object].  It
    returns when [name] was free (nothing is deleted), and when the object
    registered under [name] has a type with a registered delete function: then
    that address mapping is erased, the delete function is called on the old
    object and the Tcl command is removed, all before the new mappings go in.
    When the old object's type has no delete function, [SetObject] throws
    [UndefinedObjectTypeException] and the table is what it was. *)
Theorem SetObject_installs_or_throws s name object type :
  (outcome (SetObject name object type) s = inr tt →
     outcome (Exists name) (after (SetObject name object type) s) = inr true
     ∧ outcome (GetObject name) (after (SetObject name object type) s) = inr object)
  ∧ (m_InstanceMap s !! name = None →
     outcome (SetObject name object type) s = inr tt
     ∧ trace (after (SetObject name object type) s) = trace s)
  ∧ (∀ r f, m_InstanceMap s !! name = Some r →
     m_DeleteFunctionMap s !! GetType_ (GetCvQualifiedType r) = Some f →
     outcome (SetObject name object type) s = inr tt
     ∧ trace (after (SetObject name object type) s) =
         trace s ++ [CallDeleteFunction f (GetObject_ r);
                     Tcl_DeleteCommand (m_Interpreter s) name]
     ∧ m_AddressToNameMap (after (SetObject name object type) s) =
         <[object := name]> (delete (GetObject_ r) (m_AddressToNameMap s))
     ∧ m_InstanceMap (after (SetObject name object type) s) =
         <[name := mkReference object type]> (delete name (m_InstanceMap s)))
  ∧ (∀ r, m_InstanceMap s !! name = Some r →
     m_DeleteFunctionMap s !! GetType_ (GetCvQualifiedType r) = None →
     outcome (SetObject name object type) s = inl (UndefinedObjectTypeException "")
     ∧ after (SetObject name object type) s = s).
Proof.
  split; [| split; [| split]].
  - unfold outcome, after.
    assert (Hin : ∀ m : gmap string (Reference CvQualifiedType),
              <[name := mkReference object type]> m !! name
              = Some (mkReference object type)) by (intros; apply lookup_insert_eq).
    destruct (m_InstanceMap s !! name) as [r|] eqn:Hr.
    + destruct (m_DeleteFunctionMap s !! GetType_ (GetCvQualifiedType r)) as [f|] eqn:Hf.
      * rewrite (SetObject_replace _ _ _ _ _ _ Hr Hf). cbn [fst snd]. intros _.
        rewrite Exists_eq. cbn [fst snd m_InstanceMap]. rewrite Hin.
        rewrite bool_decide_eq_true_2 by eauto. split; [done |].
        by rewrite (GetObject_registered _ name (mkReference object type)) by apply Hin.
      * rewrite (SetObject_unknown_type _ _ _ _ _ Hr Hf). discriminate.
    + rewrite (SetObject_fresh _ _ _ _ Hr). cbn [fst snd]. intros _.
      rewrite Exists_eq. cbn [fst snd m_InstanceMap]. rewrite Hin.
      rewrite bool_decide_eq_true_2 by eauto. split; [done |].
      by rewrite (GetObject_registered _ name (mkReference object type)) by apply Hin.
  - intros Hr. unfold outcome, after. by rewrite (SetObject_fresh _ _ _ _ Hr).
  - intros r f Hr Hf. unfold outcome, after.
    by rewrite (SetObject_replace _ _ _ _ _ _ Hr Hf).
  - intros r Hr Hf. unfold outcome, after.
    by rewrite (SetObject_unknown_type _ _ _ _ _ Hr Hf).
Qed.

(** A name that [CreateTemporary] hands out is one that
    [DeleteIfTemporary] takes for a temporary. *)
Lemma CreateTemporary_name s object type name :
  outcome (CreateTemporary object type) s = inr name →
  String.substring 0 6 name = "__temp".
Proof.
  unfold outcome, CreateTemporary, bind, gets, modify.
  destruct (SetObject _ object type _) as [s' [e | []]]; [discriminate |].
  unfold ret. cbn [snd]. intros [= <-].
  by destruct (sprintf_x (m_TempNameNumber s)).
Qed.

(** The delete function may call back into the table when the object goes
    away.  [DeleteObject] erased the object's address before the call, so
    that callback finds nothing and changes nothing. *)
Lemma DeleteCallBack_unknown_address s object :
  m_AddressToNameMap s !! object = None →
  DeleteCallBack object s = (s, inr tt).
Proof.
  intros Ha. unfold DeleteCallBack, bind, gets, count. by rewrite Ha.
Qed.

Lemma DeleteCallBack_registered s object name r f :
  m_AddressToNameMap s !! object = Some name →
  m_InstanceMap s !! name = Some r →
  m_DeleteFunctionMap s !! GetType_ (GetCvQualifiedType r) = Some f →
  outcome (DeleteCallBack object) s = inr tt
  ∧ m_InstanceMap (after (DeleteCallBack object) s) !! name = None.
Proof.
  intros Ha Hr Hf.
  assert (Hcall : DeleteCallBack object s = DeleteObject name s).
  { unfold DeleteCallBack, bind, gets, count, AddressToNameMap_index.
    rewrite Ha. case_bool_decide; [| lia]. by rewrite Ha. }
  unfold outcome, after. rewrite Hcall, (DeleteObject_registered _ _ _ _ Hr Hf).
  split; [done |]. apply lookup_delete_eq.
Qed.

End Props.

(** On [ex_table_deletable] the replacement goes through: the old object 1
    is handed to delete function 400, the Tcl command goes, and ["a"] names
    object 2. *)
Example SetObject_replaces_on_ex_table :
  outcome (SetObject "a" 2%N ex_int) ex_table_deletable = inr tt
  ∧ trace (after (SetObject "a" 2%N ex_int) ex_table_deletable)
    = [CallDeleteFunction 400%N 1%N; Tcl_DeleteCommand 7%N "a"]
  ∧ outcome (GetObject "a") (after (SetObject "a" 2%N ex_int) ex_table_deletable)
    = inr 2%N
  ∧ m_AddressToNameMap (after (SetObject "a" 2%N ex_int) ex_table_deletable) !! 1%N
    = None.
Proof. vm_compute. by repeat split. Qed.

Example CreateTemporary_on_ex_table :
  outcome (CreateTemporary 5%N ex_int) ex_table = inr "__temp0"
  ∧ m_TempNameNumber (after (CreateTemporary 5%N ex_int) ex_table) = 1%N
  ∧ outcome (GetObject "__temp0") (after (CreateTemporary 5%N ex_int) ex_table)
    = inr 5%N
  ∧ sprintf_x 255 = "ff" ∧ sprintf_x 4096 = "1000".
Proof. vm_compute. by repeat split. Qed.

Example DeleteObject_on_ex_table :
  outcome (DeleteObject "b") ex_table = inl (UndefinedInstanceNameException "b")
  ∧ outcome (DeleteObject "a") ex_table = inl (UndefinedObjectTypeException "")
  ∧ after (DeleteObject "a") ex_table = ex_table
  ∧ outcome (DeleteObject "a") ex_table_deletable = inr tt
  ∧ outcome (Exists "a") (after (DeleteObject "a") ex_table_deletable) = inr false.
Proof. vm_compute. by repeat split. Qed.

(** C9 as stated fails on [ex_table]: ["a"] names object 1, whose type has
    no delete function, so [SetObject("a", 2, int)] throws and ["a"] still
    names object 1. *)
Lemma SetObject_may_throw_and_keep_old :
  outcome (SetObject "a" 2%N ex_int) ex_table = inl (UndefinedObjectTypeException "")
  ∧ outcome (GetObject "a") (after (SetObject "a" 2%N ex_int) ex_table) = inr 1%N
  ∧ outcome (GetObject "a") (after (SetObject "a" 2%N ex_int) ex_table) ≠ inr 2%N.
Proof. vm_compute. repeat split; congruence. Qed.

(** *** The member functions the claims leave out, and how they compose *)

Section Coverage.
Context `{CvQualifiedTypeInterface CvQualifiedType}.
Implicit Types (s : Instances CvQualifiedType) (name : string).

(** What the two getters give back, read off the instance map. *)
Lemma GetObject_eq s name :
  GetObject name s =
    (s, match m_InstanceMap s !! name with
        | Some r => inr (GetObject_ r)
        | None => inl (UndefinedInstanceNameException name)
        end).
Proof.
  destruct (m_InstanceMap s !! name) as [r|] eqn:Hr.
  - by apply GetObject_registered.
  - unfold GetObject, bind. by rewrite (CheckExists_unregistered _ _ Hr).
Qed.

Lemma GetType_eq s name :
  GetType name s =
    (s, match m_InstanceMap s !! name with
        | Some r => inr (GetCvQualifiedType r)
        | None => inl (UndefinedInstanceNameException name)
        end).
Proof.
  destruct (m_InstanceMap s !! name) as [r|] eqn:Hr.
  - unfold GetType, bind. rewrite (CheckExists_registered _ _ _ Hr).
    by rewrite (InstanceMap_index_registered _ _ _ Hr).
  - unfold GetType, bind. by rewrite (CheckExists_unregistered _ _ Hr).
Qed.

Lemma Exists_false_iff s name :
  outcome (Exists name) s = inr false ↔ m_InstanceMap s !! name = None.
Proof.
  unfold outcome. rewrite Exists_eq. cbn [snd].
  destruct (m_InstanceMap s !! name) as [r|].
  - rewrite bool_decide_eq_true_2 by eauto. split; discriminate.
  - rewrite bool_decide_eq_false_2 by (intros [? ?]; discriminate). done.
Qed.

(** X1: the observers [Exists], [CheckExists], [GetObject] and [GetType]
    leave the whole table as it is, also when they throw; [GetObject] and
    [GetType] throw [UndefinedInstanceNameException] for the name asked
    exactly when [Exists] answers false, and throw nothing else. *)
Theorem observers_read_only s name :
  after (Exists name) s = s
  ∧ after (CheckExists name) s = s
  ∧ after (GetObject name) s = s
  ∧ after (GetType name) s = s
  ∧ (outcome (GetObject name) s = inl (UndefinedInstanceNameException name)
       ↔ outcome (Exists name) s = inr false)
  ∧ (outcome (GetType name) s = inl (UndefinedInstanceNameException name)
       ↔ outcome (Exists name) s = inr false)
  ∧ (∀ e, outcome (GetObject name) s = inl e ∨ outcome (GetType name) s = inl e
          ∨ outcome (CheckExists name) s = inl e →
          e = UndefinedInstanceNameException name).
Proof.
  unfold after, outcome at 1 3 5 6 7.
  rewrite GetObject_eq, GetType_eq, Exists_false_iff. cbn [fst snd].
  split; [by rewrite Exists_eq |].
  destruct (m_InstanceMap s !! name) as [r|] eqn:Hr.
  - rewrite (CheckExists_registered _ _ _ Hr). cbn [fst snd].
    repeat split; try discriminate. intros e [? | [? | ?]]; discriminate.
  - rewrite (CheckExists_unregistered _ _ Hr). cbn [fst snd].
    repeat split; try done. intros e [? | [? | ?]]; congruence.
Qed.

(** The instance map after [SetObject] and after [DeleteObject], by cases. *)
Lemma SetObject_cases s name object type :
  (SetObject name object type s = (s, inl (UndefinedObjectTypeException ""))
   ∧ ∃ r, m_InstanceMap s !! name = Some r
          ∧ m_DeleteFunctionMap s !! GetType_ (GetCvQualifiedType r) = None)
  ∨ (outcome (SetObject name object type) s = inr tt
     ∧ m_InstanceMap (after (SetObject name object type) s)
       = <[name := mkReference object type]> (m_InstanceMap s)
     ∧ m_DeleteFunctionMap (after (SetObject name object type) s)
       = m_DeleteFunctionMap s
     ∧ m_TempNameNumber (after (SetObject name object type) s)
       = m_TempNameNumber s
     ∧ ∃ erased, m_AddressToNameMap (after (SetObject name object type) s)
                 = <[object := name]> (erased (m_AddressToNameMap s))
         ∧ (erased = id
              ∧ m_InstanceMap s !! name = None
              ∧ trace (after (SetObject name object type) s) = trace s
            ∨ ∃ r f, erased = delete (GetObject_ r)
              ∧ m_InstanceMap s !! name = Some r
              ∧ m_DeleteFunctionMap s !! GetType_ (GetCvQualifiedType r) = Some f
              ∧ trace (after (SetObject name object type) s)
                = trace s ++ [CallDeleteFunction f (GetObject_ r);
                              Tcl_DeleteCommand (m_Interpreter s) name])).
Proof.
  unfold outcome, after.
  destruct (m_InstanceMap s !! name) as [r|] eqn:Hr.
  - destruct (m_DeleteFunctionMap s !! GetType_ (GetCvQualifiedType r)) as [f|] eqn:Hf.
    + right. rewrite (SetObject_replace _ _ _ _ _ _ Hr Hf). cbn [fst snd].
      cbn [m_InstanceMap m_DeleteFunctionMap m_TempNameNumber m_AddressToNameMap trace].
      rewrite insert_delete_eq. repeat split.
      exists (delete (GetObject_ r)). split; [done |]. right. by exists r, f.
    + left. rewrite (SetObject_unknown_type _ _ _ _ _ Hr Hf). eauto.
  - right. rewrite (SetObject_fresh _ _ _ _ Hr). cbn [fst snd].
    cbn [m_InstanceMap m_DeleteFunctionMap m_TempNameNumber m_AddressToNameMap trace].
    repeat split. exists id. split; [done |]. by left.
Qed.

Lemma DeleteObject_cases s name :
  (∃ e, DeleteObject name s = (s, inl e))
  ∨ (∃ r f, m_InstanceMap s !! name = Some r
       ∧ m_DeleteFunctionMap s !! GetType_ (GetCvQualifiedType r) = Some f
       ∧ DeleteObject name s =
           (mkInstances (m_Interpreter s) (m_TempNameNumber s)
              (delete name (m_InstanceMap s))
              (delete (GetObject_ r) (m_AddressToNameMap s))
              (m_DeleteFunctionMap s)
              (trace s ++ [CallDeleteFunction f (GetObject_ r);
                           Tcl_DeleteCommand (m_Interpreter s) name]),
            inr tt)).
Proof.
  destruct (m_InstanceMap s !! name) as [r|] eqn:Hr.
  - destruct (m_DeleteFunctionMap s !! GetType_ (GetCvQualifiedType r)) as [f|] eqn:Hf.
    + right. exists r, f. by rewrite (DeleteObject_registered _ _ _ _ Hr Hf).
    + left. rewrite (DeleteObject_unknown_type _ _ _ Hr Hf). eauto.
  - left. rewrite (DeleteObject_unregistered _ _ Hr). eauto.
Qed.

Lemma SetObject_other s name object type name' :
  name' ≠ name →
  m_InstanceMap (after (SetObject name object type) s) !! name'
  = m_InstanceMap s !! name'.
Proof.
  intros Hne.
  destruct (SetObject_cases s name object type) as [[Hthrow _] | (_ & Hmap & _)].
  - unfold after. by rewrite Hthrow.
  - rewrite Hmap. by apply lookup_insert_ne.
Qed.

Lemma DeleteObject_other s name name' :
  name' ≠ name →
  m_InstanceMap (after (DeleteObject name) s) !! name'
  = m_InstanceMap s !! name'.
Proof.
  intros Hne. unfold after.
  destruct (DeleteObject_cases s name) as [[e ->] | (r & f & _ & _ & ->)]; [done |].
  cbn [fst m_InstanceMap]. by apply lookup_delete_ne.
Qed.

(** X2: whenever [SetObject(name, object, type)] returns, [GetType(name)]
    gives back [type] as it was passed. *)
Theorem SetObject_GetType s name object type :
  outcome (SetObject name object type) s = inr tt →
  outcome (GetType name) (after (SetObject name object type) s) = inr type.
Proof.
  intros Hret.
  destruct (SetObject_cases s name object type) as [[Hthrow _] | (_ & Hmap & _)].
  - unfold outcome in Hret. rewrite Hthrow in Hret. discriminate.
  - unfold outcome. rewrite GetType_eq, Hmap, lookup_insert_eq. done.
Qed.

(** X3: [SetObject] and [DeleteObject] on one name leave every other name as
    it was, whether they return or throw: [Exists], [GetObject] and
    [GetType] answer for the other name what they answered before. *)
Theorem other_names_untouched s name object type name' :
  name' ≠ name →
  outcome (Exists name') (after (SetObject name object type) s)
    = outcome (Exists name') s
  ∧ outcome (GetObject name') (after (SetObject name object type) s)
    = outcome (GetObject name') s
  ∧ outcome (GetType name') (after (SetObject name object type) s)
    = outcome (GetType name') s
  ∧ outcome (Exists name') (after (DeleteObject name) s)
    = outcome (Exists name') s
  ∧ outcome (GetObject name') (after (DeleteObject name) s)
    = outcome (GetObject name') s
  ∧ outcome (GetType name') (after (DeleteObject name) s)
    = outcome (GetType name') s.
Proof.
  intros Hne. unfold outcome.
  rewrite !Exists_eq, !GetObject_eq, !GetType_eq. cbn [snd].
  rewrite (SetObject_other _ _ _ _ _ Hne), (DeleteObject_other _ _ _ Hne).
  done.
Qed.

(** X4: [RegisterDeleteFunction(type, func)] returns; it puts [func] into
    the delete-function map at [type] and changes nothing else: every other
    type's entry, the instance map, the address map, the temporary counter,
    the interpreter and the trace are what they were.  A second registration
    for the same type replaces the first; and afterwards [DeleteObject] of
    any registered name whose object has that type returns, having called
    [func] on that object and then deleted the name's Tcl command. *)
Theorem RegisterDeleteFunction_enables_delete s type func :
  RegisterDeleteFunction type func s =
    (mkInstances (m_Interpreter s) (m_TempNameNumber s) (m_InstanceMap s)
       (m_AddressToNameMap s) (<[type := func]> (m_DeleteFunctionMap s))
       (trace s),
     inr tt)
  ∧ outcome (RegisterDeleteFunction type func) s = inr tt
  ∧ m_InstanceMap (after (RegisterDeleteFunction type func) s) = m_InstanceMap s
  ∧ m_AddressToNameMap (after (RegisterDeleteFunction type func) s)
    = m_AddressToNameMap s
  ∧ m_TempNameNumber (after (RegisterDeleteFunction type func) s)
    = m_TempNameNumber s
  ∧ m_Interpreter (after (RegisterDeleteFunction type func) s) = m_Interpreter s
  ∧ trace (after (RegisterDeleteFunction type func) s) = trace s
  ∧ m_DeleteFunctionMap (after (RegisterDeleteFunction type func) s) !! type
    = Some func
  ∧ (∀ type', type' ≠ type →
       m_DeleteFunctionMap (after (RegisterDeleteFunction type func) s) !! type'
       = m_DeleteFunctionMap s !! type')
  ∧ (∀ func0,
       after (RegisterDeleteFunction type func)
         (after (RegisterDeleteFunction type func0) s)
       = after (RegisterDeleteFunction type func) s)
  ∧ (∀ name r, m_InstanceMap s !! name = Some r →
       GetType_ (GetCvQualifiedType r) = type →
       outcome (DeleteObject name) (after (RegisterDeleteFunction type func) s)
         = inr tt
       ∧ trace (after (DeleteObject name)
                  (after (RegisterDeleteFunction type func) s))
         = trace s ++ [CallDeleteFunction func (GetObject_ r);
                       Tcl_DeleteCommand (m_Interpreter s) name]).
Proof.
  unfold RegisterDeleteFunction, modify, outcome, after. cbn [fst snd].
  unfold set_DeleteFunctionMap.
  cbn [m_InstanceMap m_AddressToNameMap m_DeleteFunctionMap trace
       m_Interpreter m_TempNameNumber].
  do 7 (split; [done |]).
  split; [apply lookup_insert_eq |].
  split; [intros type' Hne; by apply lookup_insert_ne |].
  split; [intros func0; by rewrite insert_insert_eq |].
  intros name r Hr Htype.
  erewrite DeleteObject_registered; [done | done |].
  cbn [m_DeleteFunctionMap]. subst type. apply lookup_insert_eq.
Qed.

(** X5: a [DeleteObject] that returns has made exactly two calls outside the
    table, in this order: the delete function registered for the object's
    type, on that object, and [Tcl_DeleteCommand] for the name; it has
    erased the name and the object's address and left the delete-function
    map and the temporary counter alone.  A [DeleteObject] that throws has
    made no outside call and changed nothing. *)
Theorem DeleteObject_outside_calls s name :
  (∀ e, outcome (DeleteObject name) s = inl e → after (DeleteObject name) s = s)
  ∧ (outcome (DeleteObject name) s = inr tt →
     ∃ r f, m_InstanceMap s !! name = Some r
       ∧ m_DeleteFunctionMap s !! GetType_ (GetCvQualifiedType r) = Some f
       ∧ trace (after (DeleteObject name) s)
         = trace s ++ [CallDeleteFunction f (GetObject_ r);
                       Tcl_DeleteCommand (m_Interpreter s) name]
       ∧ m_InstanceMap (after (DeleteObject name) s) = delete name (m_InstanceMap s)
       ∧ m_AddressToNameMap (after (DeleteObject name) s)
         = delete (GetObject_ r) (m_AddressToNameMap s)
       ∧ m_DeleteFunctionMap (after (DeleteObject name) s) = m_DeleteFunctionMap s
       ∧ m_TempNameNumber (after (DeleteObject name) s) = m_TempNameNumber s).
Proof.
  split; [apply DeleteObject_throw_unchanged |].
  unfold outcome, after.
  destruct (DeleteObject_cases s name) as [[e ->] | (r & f & Hr & Hf & ->)];
    [discriminate |].
  intros _. exists r, f. by repeat split.
Qed.

(** X6: registering an object and then reporting its deletion is a round
    trip.  When [SetObject(name, object, type)] has returned and a delete
    function is registered for [type], [DeleteCallBack(object)] finds the
    name by the object's address and deletes it: it returns, [name] no longer
    exists, and the delete function was called on [object]. *)
Theorem SetObject_then_DeleteCallBack s name object type f :
  outcome (SetObject name object type) s = inr tt →
  m_DeleteFunctionMap s !! GetType_ type = Some f →
  outcome (DeleteCallBack object) (after (SetObject name object type) s) = inr tt
  ∧ outcome (Exists name)
      (after (DeleteCallBack object) (after (SetObject name object type) s))
    = inr false
  ∧ trace (after (DeleteCallBack object) (after (SetObject name object type) s))
    = trace (after (SetObject name object type) s)
      ++ [CallDeleteFunction f object; Tcl_DeleteCommand (m_Interpreter s) name].
Proof.
  intros Hret Hf.
  destruct (SetObject_cases s name object type)
    as [[Hthrow _] | (_ & Hmap & Hdel & _ & erased & Haddr & _)].
  { unfold outcome in Hret. rewrite Hthrow in Hret. discriminate. }
  set (s' := after (SetObject name object type) s) in *.
  assert (Hi : m_Interpreter s' = m_Interpreter s).
  { subst s'. unfold after.
    destruct (m_InstanceMap s !! name) as [r|] eqn:Hr.
    - destruct (m_DeleteFunctionMap s !! GetType_ (GetCvQualifiedType r)) as [g|] eqn:Hg.
      + by rewrite (SetObject_replace _ _ _ _ _ _ Hr Hg).
      + by rewrite (SetObject_unknown_type _ _ _ _ _ Hr Hg).
    - by rewrite (SetObject_fresh _ _ _ _ Hr). }
  assert (Ha : m_AddressToNameMap s' !! object = Some name)
    by (rewrite Haddr; apply lookup_insert_eq).
  assert (Hr : m_InstanceMap s' !! name = Some (mkReference object type))
    by (rewrite Hmap; apply lookup_insert_eq).
  assert (Hd : m_DeleteFunctionMap s' !! GetType_ (GetCvQualifiedType
                 (mkReference object type)) = Some f) by (by rewrite Hdel).
  assert (Hcall : DeleteCallBack object s' = DeleteObject name s').
  { unfold DeleteCallBack, bind, gets, count, AddressToNameMap_index.
    rewrite Ha. case_bool_decide; [| lia]. by rewrite Ha. }
  unfold outcome, after. rewrite Hcall, (DeleteObject_registered _ _ _ _ Hr Hd).
  cbn [fst snd trace GetObject_]. rewrite Hi. split; [done |]. split; [| done].
  rewrite Exists_eq. cbn [snd m_InstanceMap]. rewrite lookup_delete_eq.
  by rewrite bool_decide_eq_false_2 by (intros [? ?]; discriminate).
Qed.

(** X7: an object registered under two names.  When [DeleteObject] of the
    first name returns, the second name still exists and still gives that
    object, which has just been handed to its delete function; and the table
    no longer knows the object's address, so [DeleteCallBack] for it does
    nothing. *)
Theorem DeleteObject_of_alias s name1 name2 r1 r2 f :
  name1 ≠ name2 →
  m_InstanceMap s !! name1 = Some r1 →
  m_InstanceMap s !! name2 = Some r2 →
  GetObject_ r1 = GetObject_ r2 →
  m_DeleteFunctionMap s !! GetType_ (GetCvQualifiedType r1) = Some f →
  outcome (DeleteObject name1) s = inr tt
  ∧ CallDeleteFunction f (GetObject_ r2) ∈ trace (after (DeleteObject name1) s)
  ∧ outcome (Exists name2) (after (DeleteObject name1) s) = inr true
  ∧ outcome (GetObject name2) (after (DeleteObject name1) s) = inr (GetObject_ r2)
  ∧ DeleteCallBack (GetObject_ r2) (after (DeleteObject name1) s)
    = (after (DeleteObject name1) s, inr tt).
Proof.
  intros Hne Hr1 Hr2 Hobj Hf. unfold outcome, after.
  rewrite (DeleteObject_registered _ _ _ _ Hr1 Hf). cbn [fst snd].
  assert (Hkeep : delete name1 (m_InstanceMap s) !! name2 = Some r2)
    by (by rewrite lookup_delete_ne).
  split; [done |]. split.
  { cbn [trace]. rewrite Hobj. set_solver. }
  split.
  { rewrite Exists_eq. cbn [snd m_InstanceMap]. rewrite Hkeep.
    by rewrite bool_decide_eq_true_2 by eauto. }
  split.
  { rewrite GetObject_eq. cbn [snd m_InstanceMap]. by rewrite Hkeep. }
  apply DeleteCallBack_unknown_address. cbn [m_AddressToNameMap].
  rewrite <- Hobj. apply lookup_delete_eq.
Qed.

(** *** The address map names registered objects *)

Lemma CreateTemporary_eq s object type :
  CreateTemporary object type s =
    let name := "__temp" +:+ sprintf_x (m_TempNameNumber s) in
    let s1 := set_TempNameNumber (λ n, (n + 1) mod 2 ^ 32)%N s in
    (after (SetObject name object type) s1,
     match outcome (SetObject name object type) s1 with
     | inl e => inl e
     | inr _ => inr name
     end).
Proof.
  unfold CreateTemporary, bind, gets, modify, ret, after, outcome. cbn [fst snd].
  by destruct (SetObject _ object type _) as [s2 [e | []]].
Qed.

Lemma DeleteIfTemporary_cases s name :
  (m_InstanceMap s !! name = None
   ∧ DeleteIfTemporary name s = (s, inl (UndefinedInstanceNameException name)))
  ∨ (is_Some (m_InstanceMap s !! name)
     ∧ String.substring 0 6 name = "__temp"
     ∧ DeleteIfTemporary name s = DeleteObject name s)
  ∨ (is_Some (m_InstanceMap s !! name)
     ∧ String.substring 0 6 name ≠ "__temp"
     ∧ DeleteIfTemporary name s = (s, inr tt)).
Proof.
  unfold DeleteIfTemporary, bind.
  destruct (m_InstanceMap s !! name) as [r|] eqn:Hr.
  - rewrite (CheckExists_registered _ _ _ Hr). right.
    case_bool_decide; [left | right]; eauto.
  - rewrite (CheckExists_unregistered _ _ Hr). by left.
Qed.

Lemma DeleteCallBack_cases s object :
  (m_AddressToNameMap s !! object = None ∧ DeleteCallBack object s = (s, inr tt))
  ∨ (∃ name, m_AddressToNameMap s !! object = Some name
       ∧ DeleteCallBack object s = DeleteObject name s).
Proof.
  destruct (m_AddressToNameMap s !! object) as [name|] eqn:Ha.
  - right. exists name. split; [done |].
    unfold DeleteCallBack, bind, gets, count, AddressToNameMap_index.
    rewrite Ha. case_bool_decide; [| lia]. by rewrite Ha.
  - left. split; [done |]. by apply DeleteCallBack_unknown_address.
Qed.

Lemma AddressesNamed_DeleteObject s name :
  AddressesNamed s → AddressesNamed (after (DeleteObject name) s).
Proof.
  intros Hinv. unfold after.
  destruct (DeleteObject_cases s name) as [[e ->] | (r & f & Hr & _ & ->)]; [done |].
  intros o n. cbn [fst m_AddressToNameMap m_InstanceMap].
  rewrite lookup_delete_Some. intros [Hne Ho].
  destruct (Hinv o n Ho) as (r' & Hr' & Hobj). exists r'. split; [| done].
  rewrite lookup_delete_ne; [done |]. intros <-. congruence.
Qed.

Lemma AddressesNamed_SetObject s name object type :
  AddressesNamed s → AddressesNamed (after (SetObject name object type) s).
Proof.
  intros Hinv.
  destruct (SetObject_cases s name object type)
    as [[Hthrow _] | (_ & Hmap & _ & _ & erased & Haddr & Hcase)].
  { unfold after. by rewrite Hthrow. }
  intros o n. rewrite Haddr, Hmap.
  destruct (decide (o = object)) as [-> | Hne].
  - rewrite lookup_insert_eq. intros [= <-]. rewrite lookup_insert_eq. eauto.
  - rewrite lookup_insert_ne by done. intros Ho.
    assert (Hold : m_AddressToNameMap s !! o = Some n
                   ∧ ∀ r, m_InstanceMap s !! name = Some r → GetObject_ r ≠ o).
    { destruct Hcase as [(-> & Hfree & _) | (r & f & -> & Hr & _)].
      - split; [done |]. intros r Hr. congruence.
      - apply lookup_delete_Some in Ho as [Hne' Ho]. split; [done |].
        intros r' Hr'. congruence. }
    destruct Hold as [Ho' Hnot].
    destruct (Hinv o n Ho') as (r' & Hr' & Hobj). exists r'. split; [| done].
    rewrite lookup_insert_ne; [done |]. intros <-. by apply (Hnot r').
Qed.

Lemma AddressesNamed_perform s (c : Call) :
  AddressesNamed s → AddressesNamed (perform s c).
Proof.
  intros Hinv. destruct c as [name object type | name | name | name | name
                             | type func | object type | name | object];
    cbn [perform].
  - by apply AddressesNamed_SetObject.
  - by apply AddressesNamed_DeleteObject.
  - unfold after. by rewrite Exists_eq.
  - unfold after. by rewrite GetObject_eq.
  - unfold after. by rewrite GetType_eq.
  - exact Hinv.
  - unfold after at 1. rewrite CreateTemporary_eq. cbn [fst].
    apply AddressesNamed_SetObject. exact Hinv.
  - unfold after.
    destruct (DeleteIfTemporary_cases s name)
      as [[_ ->] | [(_ & _ & ->) | (_ & _ & ->)]]; try done.
    by apply AddressesNamed_DeleteObject.
  - unfold after.
    destruct (DeleteCallBack_cases s object) as [[_ ->] | (name & _ & ->)];
      [done |].
    by apply AddressesNamed_DeleteObject.
Qed.

Lemma counter_perform s (c : Call) :
  (m_TempNameNumber s < 2 ^ 32)%N → (m_TempNameNumber (perform s c) < 2 ^ 32)%N.
Proof.
  assert (Hdel : ∀ name, m_TempNameNumber (after (DeleteObject name) s)
                         = m_TempNameNumber s).
  { intros name. unfold after.
    by destruct (DeleteObject_cases s name) as [[e ->] | (r & f & _ & _ & ->)]. }
  assert (Hset : ∀ s0 name object type,
            m_TempNameNumber (after (SetObject name object type) s0)
            = m_TempNameNumber s0).
  { intros s0 name object type.
    destruct (SetObject_cases s0 name object type)
      as [[Hthrow _] | (_ & _ & _ & Hn & _)]; [| done].
    unfold after. by rewrite Hthrow. }
  intros Hlt. destruct c as [name object type | name | name | name | name
                            | type func | object type | name | object];
    cbn [perform].
  - by rewrite Hset.
  - by rewrite Hdel.
  - unfold after. by rewrite Exists_eq.
  - unfold after. by rewrite GetObject_eq.
  - unfold after. by rewrite GetType_eq.
  - exact Hlt.
  - unfold after at 1. rewrite CreateTemporary_eq. cbn [fst]. rewrite Hset.
    cbn [set_TempNameNumber m_TempNameNumber]. by apply N.mod_lt.
  - unfold after.
    destruct (DeleteIfTemporary_cases s name)
      as [[_ ->] | [(_ & _ & Heq) | (_ & _ & ->)]]; try done.
    rewrite Heq. apply (N.le_lt_trans _ (m_TempNameNumber s)); [| done].
    specialize (Hdel name). unfold after in Hdel. by rewrite Hdel.
  - unfold after.
    destruct (DeleteCallBack_cases s object) as [[_ ->] | (name & _ & Heq)];
      [done |].
    rewrite Heq. specialize (Hdel name). unfold after in Hdel. by rewrite Hdel.
Qed.

Lemma history_snoc interp calls (c : Call) :
  history interp (calls ++ [c]) = perform (history interp calls) c.
Proof. unfold history. by rewrite foldl_snoc. Qed.

Lemma history_AddressesNamed interp (calls : list Call) :
  AddressesNamed (history interp calls).
Proof.
  induction calls as [|c calls IH] using rev_ind.
  - intros o n. cbn. by rewrite lookup_empty.
  - rewrite history_snoc. by apply AddressesNamed_perform.
Qed.

(** X8: in every table that calls of the member functions can produce from
    a freshly constructed one, returning or throwing, each address in the
    address map belongs to a name that is registered and whose object is at
    that address, and the temporary counter is below 2^32. *)
Theorem history_keeps_addresses_named interp (calls : list Call) :
  AddressesNamed (history interp calls)
  ∧ (m_TempNameNumber (history interp calls) < 2 ^ 32)%N.
Proof.
  split; [apply history_AddressesNamed |].
  induction calls as [|c calls IH] using rev_ind; [done |].
  rewrite history_snoc. by apply counter_perform.
Qed.

(** X9: on a table whose address map names registered objects, as every
    table built by the member functions is, [DeleteCallBack(object)] never
    throws [UndefinedInstanceNameException]; for an address the table does
    not know it does nothing; for a known one it deletes the name registered
    for that address, whose object is [object]; and when it returns the
    table no longer knows the address. *)
Theorem DeleteCallBack_on_named_addresses s object :
  AddressesNamed s →
  (∀ n, outcome (DeleteCallBack object) s ≠ inl (UndefinedInstanceNameException n))
  ∧ (m_AddressToNameMap s !! object = None →
       DeleteCallBack object s = (s, inr tt))
  ∧ (∀ name, m_AddressToNameMap s !! object = Some name →
       outcome (GetObject name) s = inr object
       ∧ DeleteCallBack object s = DeleteObject name s)
  ∧ (outcome (DeleteCallBack object) s = inr tt →
       m_AddressToNameMap (after (DeleteCallBack object) s) !! object = None).
Proof.
  intros Hinv. unfold outcome, after.
  destruct (DeleteCallBack_cases s object) as [[Ha ->] | (name & Ha & ->)].
  - split; [done |]. split; [done |]. split; [| done].
    intros name Hname. congruence.
  - destruct (Hinv _ _ Ha) as (r & Hr & Hobj).
    split; [| split; [| split]].
    + intros n.
      destruct (m_DeleteFunctionMap s !! GetType_ (GetCvQualifiedType r)) as [f|] eqn:Hf.
      * by rewrite (DeleteObject_registered _ _ _ _ Hr Hf).
      * by rewrite (DeleteObject_unknown_type _ _ _ Hr Hf).
    + congruence.
    + intros name' Hname'. assert (name' = name) as -> by congruence.
      rewrite GetObject_eq, Hr. cbn [snd]. by rewrite Hobj.
    + destruct (m_DeleteFunctionMap s !! GetType_ (GetCvQualifiedType r)) as [f|] eqn:Hf.
      * rewrite (DeleteObject_registered _ _ _ _ Hr Hf).
        cbn [fst snd m_AddressToNameMap]. intros _. rewrite Hobj.
        apply lookup_delete_eq.
      * by rewrite (DeleteObject_unknown_type _ _ _ Hr Hf).
Qed.

(** *** Temporary names *)

Lemma hexDigit_inj (a b : N) :
  (a < 16)%N → (b < 16)%N → hexDigit a = hexDigit b → a = b.
Proof.
  intros Ha Hb.
  assert (Ha' : (a = 0 ∨ a = 1 ∨ a = 2 ∨ a = 3 ∨ a = 4 ∨ a = 5 ∨ a = 6 ∨ a = 7
                 ∨ a = 8 ∨ a = 9 ∨ a = 10 ∨ a = 11 ∨ a = 12 ∨ a = 13 ∨ a = 14
                 ∨ a = 15)%N) by lia.
  assert (Hb' : (b = 0 ∨ b = 1 ∨ b = 2 ∨ b = 3 ∨ b = 4 ∨ b = 5 ∨ b = 6 ∨ b = 7
                 ∨ b = 8 ∨ b = 9 ∨ b = 10 ∨ b = 11 ∨ b = 12 ∨ b = 13 ∨ b = 14
                 ∨ b = 15)%N) by lia.
  clear Ha Hb.
  repeat (destruct Ha' as [-> | Ha']); try subst a;
    repeat (destruct Hb' as [-> | Hb']); try subst b;
    intros Heq; try reflexivity; vm_compute in Heq; congruence.
Qed.

Lemma hexDigits_length d n acc :
  (String.length acc ≤ String.length (hexDigits d n acc) ≤ d + String.length acc)%nat
  ∧ (d ≠ 0%nat → (String.length acc < String.length (hexDigits d n acc))%nat).
Proof.
  revert n acc. induction d as [|d IH]; intros n acc; cbn [hexDigits].
  - split; [lia | done].
  - destruct (n / 16 =? 0)%N.
    + cbn [String.length]. split; [lia | intros _; lia].
    + destruct (IH (n / 16)%N (String (hexDigit (n mod 16)) acc)) as [[Hlo Hhi] _].
      cbn [String.length] in *. split; [lia | intros _; lia].
Qed.

Lemma hexDigits_inj d n m acc acc' :
  (n < 16 ^ N.of_nat d)%N → (m < 16 ^ N.of_nat d)%N →
  String.length acc = String.length acc' →
  hexDigits d n acc = hexDigits d m acc' → n = m ∧ acc = acc'.
Proof.
  revert n m acc acc'. induction d as [|d IH]; intros n m acc acc' Hn Hm Hlen.
  - cbn [hexDigits]. change (16 ^ N.of_nat 0)%N with 1%N in *. split; [lia | done].
  - assert (Hpow : (16 ^ N.of_nat (S d) = 16 * 16 ^ N.of_nat d)%N).
    { rewrite Nat2N.inj_succ, N.pow_succ_r'. done. }
    rewrite Hpow in Hn, Hm.
    assert (Hn' : (n / 16 < 16 ^ N.of_nat d)%N) by (apply N.Div0.div_lt_upper_bound; lia).
    assert (Hm' : (m / 16 < 16 ^ N.of_nat d)%N) by (apply N.Div0.div_lt_upper_bound; lia).
    assert (Hdigit : ∀ k, (k mod 16 < 16)%N) by (intros k; apply N.mod_lt; lia).
    assert (Hsplit : ∀ k, (k = 16 * (k / 16) + k mod 16)%N)
      by (intros k; apply N.div_mod; lia).
    assert (Hd0 : ∀ k, (k < 16 * 16 ^ N.of_nat d)%N → (k / 16 ≠ 0)%N → d ≠ 0%nat).
    { intros k Hk Hk0 ->. change (16 ^ N.of_nat 0)%N with 1%N in Hk.
      apply Hk0, N.div_small. lia. }
    cbn [hexDigits].
    destruct (N.eqb_spec (n / 16) 0) as [En | En];
      destruct (N.eqb_spec (m / 16) 0) as [Em | Em]; intros Heq.
    + injection Heq as Hc Hacc.
      apply hexDigit_inj in Hc; [| done | done].
      split; [| done]. rewrite (Hsplit n), (Hsplit m). lia.
    + exfalso.
      destruct (hexDigits_length d (m / 16)%N (String (hexDigit (m mod 16)) acc'))
        as [_ Hgt]. specialize (Hgt (Hd0 m Hm Em)).
      rewrite <- Heq in Hgt. cbn [String.length] in Hgt. lia.
    + exfalso.
      destruct (hexDigits_length d (n / 16)%N (String (hexDigit (n mod 16)) acc))
        as [_ Hgt]. specialize (Hgt (Hd0 n Hn En)).
      rewrite Heq in Hgt. cbn [String.length] in Hgt. lia.
    + apply IH in Heq as [Hdiv Hacc]; [| done | done | cbn [String.length]; lia].
      injection Hacc as Hc Hacc.
      apply hexDigit_inj in Hc; [| done | done].
      split; [| done]. rewrite (Hsplit n), (Hsplit m). lia.
Qed.

(** Two counters below 2^32 are printed alike only if they are equal. *)
Lemma sprintf_x_inj (n m : N) :
  (n < 2 ^ 32)%N → (m < 2 ^ 32)%N → sprintf_x n = sprintf_x m → n = m.
Proof.
  intros Hn Hm Heq. unfold sprintf_x in Heq.
  by apply (hexDigits_inj 8 n m "" "") in Heq as [? _].
Qed.

Lemma temp_name_inj (x y : string) : "__temp" +:+ x = "__temp" +:+ y → x = y.
Proof. intros Heq. cbv [String.append] in Heq. by injection Heq. Qed.

Lemma temp_name_length (n : N) :
  (String.length ("__temp" +:+ sprintf_x n) ≤ 14)%nat.
Proof.
  cbv [String.append]. cbn [String.length]. unfold sprintf_x.
  destruct (hexDigits_length 8 n "") as [[_ Hhi] _]. cbn [String.length] in Hhi. lia.
Qed.

Lemma temp_name_prefix (x : string) : String.substring 0 6 ("__temp" +:+ x) = "__temp".
Proof. by destruct x. Qed.

Lemma CreateTemporary_result s object type :
  let name := "__temp" +:+ sprintf_x (m_TempNameNumber s) in
  m_TempNameNumber (after (CreateTemporary object type) s)
    = ((m_TempNameNumber s + 1) mod 2 ^ 32)%N
  ∧ (outcome (CreateTemporary object type) s = inr name
     ∨ outcome (CreateTemporary object type) s
       = inl (UndefinedObjectTypeException ""))
  ∧ (m_InstanceMap s !! name = None →
     outcome (CreateTemporary object type) s = inr name)
  ∧ (outcome (CreateTemporary object type) s = inr name →
     m_InstanceMap (after (CreateTemporary object type) s) !! name
     = Some (mkReference object type)).
Proof.
  intros name. unfold outcome, after.
  rewrite CreateTemporary_eq. cbn zeta. fold name. cbn [fst snd].
  set (s1 := set_TempNameNumber (λ n, (n + 1) mod 2 ^ 32)%N s).
  split.
  { destruct (SetObject_cases s1 name object type)
      as [[Hthrow _] | (_ & _ & _ & -> & _)]; [| done].
    unfold after. by rewrite Hthrow. }
  destruct (SetObject_cases s1 name object type)
    as [[Hthrow (r & Hr & _)] | (Hret & Hmap & _)].
  - unfold outcome, after. rewrite Hthrow. cbn [fst snd].
    split; [by right |]. split; [| discriminate].
    intros Hfree. change (m_InstanceMap s1) with (m_InstanceMap s) in Hr. congruence.
  - rewrite Hret. split; [by left |]. split; [done |]. intros _.
    by rewrite Hmap, lookup_insert_eq.
Qed.

(** X10: [CreateTemporary(object, type)] names the object ["__temp"]
    followed by the counter in hexadecimal and advances the counter, also
    when it throws.  The name is at most 14 characters long, so it fits the
    15-byte buffer with its terminator, and it passes the ["__temp"] test of
    [DeleteIfTemporary].  The call returns that name, or throws
    [UndefinedObjectTypeException]; it returns whenever the name is free, and
    when it returns the name gives [object] and [type]. *)
Theorem CreateTemporary_names_object s object type :
  let name := "__temp" +:+ sprintf_x (m_TempNameNumber s) in
  m_TempNameNumber (after (CreateTemporary object type) s)
    = ((m_TempNameNumber s + 1) mod 2 ^ 32)%N
  ∧ (String.length name ≤ 14)%nat
  ∧ String.substring 0 6 name = "__temp"
  ∧ (outcome (CreateTemporary object type) s = inr name
     ∨ outcome (CreateTemporary object type) s
       = inl (UndefinedObjectTypeException ""))
  ∧ (m_InstanceMap s !! name = None →
     outcome (CreateTemporary object type) s = inr name)
  ∧ (outcome (CreateTemporary object type) s = inr name →
     outcome (GetObject name) (after (CreateTemporary object type) s) = inr object
     ∧ outcome (GetType name) (after (CreateTemporary object type) s) = inr type).
Proof.
  intros name.
  destruct (CreateTemporary_result s object type) as (Hc & Hr & Hfree & Hget).
  fold name in Hr, Hfree, Hget.
  split; [done |]. split; [apply temp_name_length |].
  split; [apply temp_name_prefix |]. split; [done |]. split; [done |].
  intros Hret. unfold outcome. rewrite GetObject_eq, GetType_eq, (Hget Hret). done.
Qed.

(** X11: two [CreateTemporary] calls in a row that both return give
    different names, so the second temporary does not replace the first:
    afterwards each name gives its own object. *)
Theorem CreateTemporary_twice s object1 type1 object2 type2 name1 name2 :
  (m_TempNameNumber s < 2 ^ 32)%N →
  outcome (CreateTemporary object1 type1) s = inr name1 →
  outcome (CreateTemporary object2 type2) (after (CreateTemporary object1 type1) s)
    = inr name2 →
  name1 ≠ name2
  ∧ outcome (GetObject name1)
      (after (CreateTemporary object2 type2) (after (CreateTemporary object1 type1) s))
    = inr object1
  ∧ outcome (GetObject name2)
      (after (CreateTemporary object2 type2) (after (CreateTemporary object1 type1) s))
    = inr object2.
Proof.
  intros Hlt H1 H2.
  destruct (CreateTemporary_result s object1 type1) as (Hc1 & Hr1 & _ & Hg1).
  set (s1 := after (CreateTemporary object1 type1) s) in *.
  destruct (CreateTemporary_result s1 object2 type2) as (_ & Hr2 & _ & Hg2).
  cbn zeta in *.
  destruct Hr1 as [Hr1 | Hr1]; [| congruence].
  destruct Hr2 as [Hr2 | Hr2]; [| congruence].
  assert (Hn1 : name1 = "__temp" +:+ sprintf_x (m_TempNameNumber s)) by congruence.
  assert (Hn2 : name2 = "__temp" +:+ sprintf_x (m_TempNameNumber s1)) by congruence.
  assert (Hne : name1 ≠ name2).
  { rewrite Hn1, Hn2, Hc1. intros Heq. apply temp_name_inj, sprintf_x_inj in Heq.
    - destruct (N.lt_ge_cases (m_TempNameNumber s + 1) (2 ^ 32)) as [Hs | Hs].
      + rewrite N.mod_small in Heq by done. lia.
      + replace (m_TempNameNumber s + 1)%N with (2 ^ 32)%N in Heq by lia.
        rewrite N.Div0.mod_same in Heq. lia.
    - done.
    - apply N.mod_lt. done. }
  split; [done |]. split.
  - unfold outcome. rewrite GetObject_eq. cbn [snd].
    unfold after at 1. rewrite CreateTemporary_eq. cbn [fst].
    rewrite SetObject_other by (by rewrite <- Hn2).
    change (m_InstanceMap (set_TempNameNumber _ s1)) with (m_InstanceMap s1).
    rewrite Hn1. by rewrite (Hg1 Hr1).
  - unfold outcome. rewrite GetObject_eq. cbn [snd].
    rewrite Hn2. by rewrite (Hg2 Hr2).
Qed.

Lemma SetObject_interp s name object type :
  m_Interpreter (after (SetObject name object type) s) = m_Interpreter s.
Proof.
  unfold after.
  destruct (m_InstanceMap s !! name) as [r|] eqn:Hr.
  - destruct (m_DeleteFunctionMap s !! GetType_ (GetCvQualifiedType r)) as [g|] eqn:Hg.
    + by rewrite (SetObject_replace _ _ _ _ _ _ Hr Hg).
    + by rewrite (SetObject_unknown_type _ _ _ _ _ Hr Hg).
  - by rewrite (SetObject_fresh _ _ _ _ Hr).
Qed.

Lemma CreateTemporary_maps s object type name :
  outcome (CreateTemporary object type) s = inr name →
  name = "__temp" +:+ sprintf_x (m_TempNameNumber s)
  ∧ m_InstanceMap (after (CreateTemporary object type) s)
    = <[name := mkReference object type]> (m_InstanceMap s)
  ∧ m_DeleteFunctionMap (after (CreateTemporary object type) s)
    = m_DeleteFunctionMap s
  ∧ m_Interpreter (after (CreateTemporary object type) s) = m_Interpreter s.
Proof.
  unfold outcome, after. rewrite CreateTemporary_eq. cbn zeta. cbn [fst snd].
  set (s1 := set_TempNameNumber (λ n, (n + 1) mod 2 ^ 32)%N s).
  set (name0 := "__temp" +:+ sprintf_x (m_TempNameNumber s)).
  rewrite SetObject_interp.
  destruct (SetObject_cases s1 name0 object type)
    as [[Hthrow _] | (Hret & Hmap & Hdel & _)].
  - unfold outcome. rewrite Hthrow. discriminate.
  - rewrite Hret. intros [= <-]. by rewrite Hmap, Hdel.
Qed.

(** X12: [DeleteIfTemporary(name)] throws
    [UndefinedInstanceNameException] for a name that is not registered,
    whatever it looks like, and changes nothing; for a registered name that
    does not begin with ["__temp"] it returns and changes nothing; for a
    registered name that does, it is [DeleteObject(name)]. *)
Theorem DeleteIfTemporary_by_prefix s name :
  (outcome (Exists name) s = inr false →
     DeleteIfTemporary name s = (s, inl (UndefinedInstanceNameException name)))
  ∧ (outcome (Exists name) s = inr true →
     String.substring 0 6 name ≠ "__temp" →
     DeleteIfTemporary name s = (s, inr tt))
  ∧ (outcome (Exists name) s = inr true →
     String.substring 0 6 name = "__temp" →
     DeleteIfTemporary name s = DeleteObject name s).
Proof.
  assert (Hex : ∀ b, outcome (Exists name) s = inr b →
            if b then is_Some (m_InstanceMap s !! name)
            else m_InstanceMap s !! name = None).
  { intros b. unfold outcome. rewrite Exists_eq. cbn [snd]. intros [= <-].
    case_bool_decide as Hs; [done |].
    destruct (m_InstanceMap s !! name); [destruct Hs; eauto | done]. }
  destruct (DeleteIfTemporary_cases s name)
    as [[Hnone ->] | [(Hsome & Hpre & ->) | (Hsome & Hpre & ->)]].
  - split; [done |].
    split; intros Ht; apply Hex in Ht; destruct Ht as [r Hr]; congruence.
  - split; [intros Hf; apply Hex in Hf; destruct Hsome; congruence |].
    split; [intros _ Hno; by destruct Hno | done].
  - split; [intros Hf; apply Hex in Hf; destruct Hsome; congruence |].
    split; [done | intros _ Hyes; by destruct Hpre].
Qed.

(** X13: a temporary made by [CreateTemporary] is removed again by
    [DeleteIfTemporary] of the name returned, when a delete function is
    registered for its type: the call returns, the name no longer exists, the
    delete function was called on the object and the name's Tcl command
    deleted; and if the name was free before, the instance map is what it
    was before the temporary was made. *)
Theorem CreateTemporary_then_DeleteIfTemporary s object type name f :
  outcome (CreateTemporary object type) s = inr name →
  m_DeleteFunctionMap s !! GetType_ type = Some f →
  outcome (DeleteIfTemporary name) (after (CreateTemporary object type) s) = inr tt
  ∧ outcome (Exists name)
      (after (DeleteIfTemporary name) (after (CreateTemporary object type) s))
    = inr false
  ∧ trace (after (DeleteIfTemporary name) (after (CreateTemporary object type) s))
    = trace (after (CreateTemporary object type) s)
      ++ [CallDeleteFunction f object; Tcl_DeleteCommand (m_Interpreter s) name]
  ∧ (m_InstanceMap s !! name = None →
     m_InstanceMap
       (after (DeleteIfTemporary name) (after (CreateTemporary object type) s))
     = m_InstanceMap s).
Proof.
  intros Hret Hf.
  destruct (CreateTemporary_maps s object type name Hret) as (Hname & Hmap & Hdel & Hi).
  set (s1 := after (CreateTemporary object type) s) in *.
  assert (Hr : m_InstanceMap s1 !! name = Some (mkReference object type))
    by (rewrite Hmap; apply lookup_insert_eq).
  assert (Hd : m_DeleteFunctionMap s1 !! GetType_ (GetCvQualifiedType
                 (mkReference object type)) = Some f) by (by rewrite Hdel).
  assert (Hpre : String.substring 0 6 name = "__temp")
    by (rewrite Hname; apply temp_name_prefix).
  assert (Hcall : DeleteIfTemporary name s1 = DeleteObject name s1).
  { destruct (DeleteIfTemporary_cases s1 name)
      as [[Hnone _] | [(_ & _ & ->) | (_ & Hno & _)]]; [congruence | done | done]. }
  unfold outcome, after. rewrite Hcall, (DeleteObject_registered _ _ _ _ Hr Hd).
  cbn [fst snd trace m_InstanceMap GetObject_]. rewrite Hi.
  split; [done |]. split; [| split; [done |]].
  - rewrite Exists_eq. cbn [snd m_InstanceMap]. rewrite lookup_delete_eq.
    by rewrite bool_decide_eq_false_2 by (intros [? ?]; discriminate).
  - intros Hfree. rewrite Hmap. by apply delete_insert_id.
Qed.

(** X14: deleting is not repeatable.  After a [DeleteObject(name)] that
    returned, a second [DeleteObject(name)], [GetObject(name)] and
    [GetType(name)] all throw [UndefinedInstanceNameException], and the
    second [DeleteObject] makes no further call to a delete function. *)
Theorem DeleteObject_twice s name :
  outcome (DeleteObject name) s = inr tt →
  outcome (DeleteObject name) (after (DeleteObject name) s)
    = inl (UndefinedInstanceNameException name)
  ∧ outcome (GetObject name) (after (DeleteObject name) s)
    = inl (UndefinedInstanceNameException name)
  ∧ outcome (GetType name) (after (DeleteObject name) s)
    = inl (UndefinedInstanceNameException name)
  ∧ trace (after (DeleteObject name) (after (DeleteObject name) s))
    = trace (after (DeleteObject name) s).
Proof.
  unfold outcome at 1.
  destruct (DeleteObject_cases s name) as [[e He] | (r & f & Hr & Hf & He)];
    [rewrite He; discriminate |].
  intros _.
  assert (Hgone : m_InstanceMap (after (DeleteObject name) s) !! name = None).
  { unfold after. rewrite He. apply lookup_delete_eq. }
  set (s1 := after (DeleteObject name) s) in *.
  unfold outcome, after.
  by rewrite (DeleteObject_unregistered _ _ Hgone), GetObject_eq, GetType_eq, Hgone.
Qed.

End Coverage.

(** *** The theorems above at the example tables *)

Lemma SetObject_GetType_on_ex_table :
  outcome (GetType "a") (after (SetObject "a" 2%N ex_int) ex_table_deletable)
  = inr ex_int.
Proof. apply (SetObject_GetType ex_table_deletable "a" 2%N ex_int). reflexivity. Defined.

Lemma other_names_untouched_on_ex_table :
  outcome (Exists "a") (after (SetObject "b" 2%N ex_int) ex_table_deletable)
    = outcome (Exists "a") ex_table_deletable
  ∧ outcome (GetObject "a") (after (SetObject "b" 2%N ex_int) ex_table_deletable)
    = outcome (GetObject "a") ex_table_deletable
  ∧ outcome (GetType "a") (after (SetObject "b" 2%N ex_int) ex_table_deletable)
    = outcome (GetType "a") ex_table_deletable
  ∧ outcome (Exists "a") (after (DeleteObject "b") ex_table_deletable)
    = outcome (Exists "a") ex_table_deletable
  ∧ outcome (GetObject "a") (after (DeleteObject "b") ex_table_deletable)
    = outcome (GetObject "a") ex_table_deletable
  ∧ outcome (GetType "a") (after (DeleteObject "b") ex_table_deletable)
    = outcome (GetType "a") ex_table_deletable.
Proof.
  apply (other_names_untouched ex_table_deletable "b" 2%N ex_int "a"). discriminate.
Defined.

Lemma SetObject_then_DeleteCallBack_on_ex_table :
  outcome (DeleteCallBack 9%N) (after (SetObject "c" 9%N ex_int) ex_table_deletable)
    = inr tt
  ∧ outcome (Exists "c")
      (after (DeleteCallBack 9%N) (after (SetObject "c" 9%N ex_int) ex_table_deletable))
    = inr false
  ∧ trace (after (DeleteCallBack 9%N)
             (after (SetObject "c" 9%N ex_int) ex_table_deletable))
    = trace (after (SetObject "c" 9%N ex_int) ex_table_deletable)
      ++ [CallDeleteFunction 400%N 9%N;
          Tcl_DeleteCommand (m_Interpreter ex_table_deletable) "c"].
Proof.
  apply (SetObject_then_DeleteCallBack ex_table_deletable "c" 9%N ex_int 400%N);
    reflexivity.
Defined.

Lemma DeleteObject_of_alias_on_ex_table :
  outcome (DeleteObject "a") ex_table_alias = inr tt
  ∧ CallDeleteFunction 400%N 1%N ∈ trace (after (DeleteObject "a") ex_table_alias)
  ∧ outcome (Exists "b") (after (DeleteObject "a") ex_table_alias) = inr true
  ∧ outcome (GetObject "b") (after (DeleteObject "a") ex_table_alias) = inr 1%N
  ∧ DeleteCallBack 1%N (after (DeleteObject "a") ex_table_alias)
    = (after (DeleteObject "a") ex_table_alias, inr tt).
Proof.
  apply (DeleteObject_of_alias ex_table_alias "a" "b"
           (mkReference 1%N ex_int) (mkReference 1%N ex_int) 400%N);
    (discriminate || reflexivity).
Defined.

Lemma ex_table_deletable_history :
  ex_table_deletable
  = history 7%N [CallSetObject "a" 1%N ex_int; CallRegisterDeleteFunction 16%N 400%N].
Proof. reflexivity. Qed.

Lemma DeleteCallBack_on_ex_table :
  (∀ n, outcome (DeleteCallBack 1%N) ex_table_deletable
        ≠ inl (UndefinedInstanceNameException n))
  ∧ (m_AddressToNameMap ex_table_deletable !! 1%N = None →
       DeleteCallBack 1%N ex_table_deletable = (ex_table_deletable, inr tt))
  ∧ (∀ name, m_AddressToNameMap ex_table_deletable !! 1%N = Some name →
       outcome (GetObject name) ex_table_deletable = inr 1%N
       ∧ DeleteCallBack 1%N ex_table_deletable = DeleteObject name ex_table_deletable)
  ∧ (outcome (DeleteCallBack 1%N) ex_table_deletable = inr tt →
       m_AddressToNameMap (after (DeleteCallBack 1%N) ex_table_deletable) !! 1%N
       = None).
Proof.
  apply (DeleteCallBack_on_named_addresses ex_table_deletable 1%N).
  rewrite ex_table_deletable_history. apply history_AddressesNamed.
Defined.

Lemma CreateTemporary_twice_on_ex_table :
  "__temp0" ≠ "__temp1"
  ∧ outcome (GetObject "__temp0")
      (after (CreateTemporary 6%N ex_int) (after (CreateTemporary 5%N ex_int) ex_table))
    = inr 5%N
  ∧ outcome (GetObject "__temp1")
      (after (CreateTemporary 6%N ex_int) (after (CreateTemporary 5%N ex_int) ex_table))
    = inr 6%N.
Proof.
  apply (CreateTemporary_twice ex_table 5%N ex_int 6%N ex_int "__temp0" "__temp1");
    reflexivity.
Defined.

Lemma CreateTemporary_then_DeleteIfTemporary_on_ex_table :
  outcome (DeleteIfTemporary "__temp0")
    (after (CreateTemporary 5%N ex_int) ex_table_deletable) = inr tt
  ∧ outcome (Exists "__temp0")
      (after (DeleteIfTemporary "__temp0")
         (after (CreateTemporary 5%N ex_int) ex_table_deletable))
    = inr false
  ∧ trace (after (DeleteIfTemporary "__temp0")
             (after (CreateTemporary 5%N ex_int) ex_table_deletable))
    = trace (after (CreateTemporary 5%N ex_int) ex_table_deletable)
      ++ [CallDeleteFunction 400%N 5%N;
          Tcl_DeleteCommand (m_Interpreter ex_table_deletable) "__temp0"]
  ∧ (m_InstanceMap ex_table_deletable !! "__temp0" = None →
     m_InstanceMap
       (after (DeleteIfTemporary "__temp0")
          (after (CreateTemporary 5%N ex_int) ex_table_deletable))
     = m_InstanceMap ex_table_deletable).
Proof.
  apply (CreateTemporary_then_DeleteIfTemporary ex_table_deletable 5%N ex_int
           "__temp0" 400%N); reflexivity.
Defined.

Lemma DeleteObject_twice_on_ex_table :
  outcome (DeleteObject "a") (after (DeleteObject "a") ex_table_deletable)
    = inl (UndefinedInstanceNameException "a")
  ∧ outcome (GetObject "a") (after (DeleteObject "a") ex_table_deletable)
    = inl (UndefinedInstanceNameException "a")
  ∧ outcome (GetType "a") (after (DeleteObject "a") ex_table_deletable)
    = inl (UndefinedInstanceNameException "a")
  ∧ trace (after (DeleteObject "a") (after (DeleteObject "a") ex_table_deletable))
    = trace (after (DeleteObject "a") ex_table_deletable).
Proof. apply (DeleteObject_twice ex_table_deletable "a"). reflexivity. Defined.

End InstanceTableProps.

Module SyNProps.
Import SyN.
#[local] Open Scope Q_scope.

(** *** The public boundary of the class *)

Lemma SetGet_LearningRate {T} (v : RealType) (d : SyNImageRegistrationMethod T) :
  GetLearningRate (SetLearningRate v d) = v.
Proof. reflexivity. Qed.

Lemma SetGet_UpdateFieldVariance {T} (v : RealType) (d : SyNImageRegistrationMethod T) :
  GetGaussianSmoothingVarianceForTheUpdateField
    (SetGaussianSmoothingVarianceForTheUpdateField v d) = v
  ∧ GetGaussianSmoothingVarianceForTheTotalField
      (SetGaussianSmoothingVarianceForTheUpdateField v d)
    = GetGaussianSmoothingVarianceForTheTotalField d.
Proof. by split. Qed.

Lemma SetGet_TotalFieldVariance {T} (v : RealType) (d : SyNImageRegistrationMethod T) :
  GetGaussianSmoothingVarianceForTheTotalField
    (SetGaussianSmoothingVarianceForTheTotalField v d) = v
  ∧ GetGaussianSmoothingVarianceForTheUpdateField
      (SetGaussianSmoothingVarianceForTheTotalField v d)
    = GetGaussianSmoothingVarianceForTheUpdateField d.
Proof. by split. Qed.

(** *** The convergence monitor *)

Lemma Qlt_bool_iff (x y : Q) : Qlt_bool x y = true ↔ x < y.
Proof. unfold Qlt_bool, Qlt. apply Z.ltb_lt. Qed.

Lemma Qlt_bool_false_iff (x y : Q) : Qlt_bool x y = false ↔ ¬ x < y.
Proof.
  rewrite <- Qlt_bool_iff. destruct (Qlt_bool x y); split; congruence.
Qed.

Lemma record_window v m :
  window (record v m) =
    if (convergenceWindowSize m <? length (window m ++ [v]))%nat
    then drop 1 (window m ++ [v]) else window m ++ [v].
Proof. reflexivity. Qed.

Lemma recordAll_snoc vs v m :
  recordAll (vs ++ [v]) m = record v (recordAll vs m).
Proof. unfold recordAll. by rewrite foldl_snoc. Qed.

Lemma recordAll_size vs m :
  convergenceWindowSize (recordAll vs m) = convergenceWindowSize m
  ∧ convergenceThreshold (recordAll vs m) = convergenceThreshold m.
Proof.
  induction vs as [|v vs IH] using rev_ind; [done |].
  rewrite recordAll_snoc. exact IH.
Qed.

(** After a reset, the window holds the last [w] of the values recorded, or
    all of them while there are fewer than [w]. *)
Lemma recordAll_window vs m :
  window (recordAll vs (reset m)) =
    drop (length vs - convergenceWindowSize m)%nat vs.
Proof.
  induction vs as [|v vs IH] using rev_ind; [done |].
  rewrite recordAll_snoc, record_window, IH.
  destruct (recordAll_size vs (reset m)) as [-> _]. cbn [reset convergenceWindowSize].
  set (w := convergenceWindowSize m).
  rewrite !length_app, length_drop. cbn [length].
  destruct (Nat.ltb_spec w (length vs - (length vs - w) + 1)%nat) as [Hlt | Hge].
  - assert (Hw : (w ≤ length vs)%nat) by lia.
    rewrite !drop_app, drop_drop, length_drop.
    f_equal; f_equal; lia.
  - replace (length vs - w)%nat with 0%nat by lia.
    replace (length vs + 1 - w)%nat with 0%nat by lia. done.
Qed.

Lemma query_recordAll vs m :
  let m' := recordAll vs (reset m) in
  ((length vs < convergenceWindowSize m)%nat → query m' = false)
  ∧ ((convergenceWindowSize m ≤ length vs)%nat →
     (query m' = true ↔
      Qabs (slope (drop (length vs - convergenceWindowSize m)%nat vs))
        < convergenceThreshold m)).
Proof.
  intros m'. unfold query. subst m'.
  rewrite recordAll_window.
  destruct (recordAll_size vs (reset m)) as [-> ->].
  cbn [reset convergenceWindowSize convergenceThreshold].
  rewrite length_drop. split; intros Hlen.
  - destruct (Nat.ltb_spec (length vs - (length vs - convergenceWindowSize m))
                (convergenceWindowSize m)); [done | lia].
  - destruct (Nat.ltb_spec (length vs - (length vs - convergenceWindowSize m))
                (convergenceWindowSize m)); [lia |].
    apply Qlt_bool_iff.
Qed.

(** The least-squares slope through four values. *)
Lemma slope_four (a b c d : Q) :
  slope [a; b; c; d] == (3 * (d - a) + (c - b)) / 10.
Proof. unfold slope. cbn. field. Qed.

Lemma flat_window_converged (metric : nat → RealType) (c threshold : RealType) n :
  0 < threshold →
  (∀ k, (3 < k)%nat → metric k == c) → (6 < n)%nat →
  Qlt_bool (Qabs (slope (windowAt metric n))) threshold = true.
Proof.
  intros Hthr Hc Hn. apply Qlt_bool_iff. unfold windowAt.
  assert (Hflat : slope [metric (n - 3)%nat; metric (n - 2)%nat;
                         metric (n - 1)%nat; metric n] == 0).
  { rewrite slope_four, !Hc by lia. field. }
  rewrite Hflat. exact Hthr.
Qed.

(** What the loop does depends only on the outcomes of the iterations it
    can reach. *)
Lemma iterate_ext steps steps' cap ran m :
  (∀ n, (ran < n ≤ ran + cap)%nat → steps n = steps' n) →
  iterate steps cap ran m = iterate steps' cap ran m.
Proof.
  revert ran m. induction cap as [|cap IH]; intros ran m Hs; [done |].
  cbn [iterate]. rewrite (Hs (S ran)) by lia.
  destruct (steps' (S ran)); try done.
  destruct (query _); [done |]. apply IH. intros n Hn. apply Hs. lia.
Qed.

(** The loop never runs past its cap, and never stops before it has begun. *)
Lemma iterate_bounds steps cap ran m n m' :
  iterate steps cap ran m = inr (n, m') → (ran ≤ n ≤ ran + cap)%nat.
Proof.
  revert ran m. induction cap as [|cap IH]; intros ran m; cbn [iterate].
  - intros [= <- <-]. lia.
  - destruct (steps (S ran)); try discriminate.
    + intros [= <- <-]. lia.
    + destruct (query _).
      * intros [= <- <-]. lia.
      * intros Hi. apply IH in Hi. lia.
Qed.

(** A run that agrees with another up to iteration [upto] ends where that
    one does, if that one ends by then. *)
Lemma iterate_ext_upto steps steps' upto cap ran m n m' :
  (∀ k, (ran < k ≤ upto)%nat → steps k = steps' k) →
  iterate steps' cap ran m = inr (n, m') → (n ≤ upto)%nat →
  iterate steps cap ran m = inr (n, m').
Proof.
  revert ran m. induction cap as [|cap IH]; intros ran m Hs Hi Hn; [done |].
  assert (Hran : (S ran ≤ n)%nat).
  { cbn [iterate] in Hi. destruct (steps' (S ran)); try discriminate.
    - injection Hi as <- _. lia.
    - destruct (query _); [injection Hi as <- _; lia |].
      apply iterate_bounds in Hi. lia. }
  cbn [iterate] in *. rewrite (Hs (S ran)) by lia.
  destruct (steps' (S ran)); try done.
  destruct (query _); [done |].
  apply IH; [| done | done]. intros k Hk. apply Hs. lia.
Qed.

Lemma runLevel_ext_upto steps steps' upto w threshold cap n :
  (∀ k, (1 ≤ k ≤ upto)%nat → steps k = steps' k) →
  runLevel w threshold cap steps' = inr n → (n ≤ upto)%nat →
  runLevel w threshold cap steps = inr n.
Proof.
  unfold runLevel. intros Hs Hr Hn.
  destruct (iterate steps' cap 0 _) as [e | [n' m']] eqn:Hi; [discriminate |].
  injection Hr as ->.
  rewrite (iterate_ext_upto steps steps' upto _ _ _ n m'); [done | | done | done].
  intros k Hk. apply Hs. lia.
Qed.

(** A level with window size four whose iterations all update the fields,
    unrolled over its first seven iterations: the first three cannot
    converge, the next four ask for the slope of the window that ends
    there. *)
Lemma runLevel_four threshold cap metric :
  runLevel 4 threshold (7 + cap) (updating metric) =
    if Qlt_bool (Qabs (slope (windowAt metric 4))) threshold then inr 4%nat
    else if Qlt_bool (Qabs (slope (windowAt metric 5))) threshold then inr 5%nat
    else if Qlt_bool (Qabs (slope (windowAt metric 6))) threshold then inr 6%nat
    else if Qlt_bool (Qabs (slope (windowAt metric 7))) threshold then inr 7%nat
    else
      match iterate (updating metric) cap 7
              (recordAll (metric <$> seq 1 7) (reset (mkMonitor 4 threshold [])))
      with
      | inl e => inl e
      | inr (n, _) => inr n
      end.
Proof.
  unfold runLevel, windowAt. cbn -[slope Qabs Qlt_bool].
  destruct (Qlt_bool (Qabs (slope [metric 1; metric 2; metric 3; metric 4])) _)%nat;
    [reflexivity |].
  destruct (Qlt_bool (Qabs (slope [metric 2; metric 3; metric 4; metric 5])) _)%nat;
    [reflexivity |].
  destruct (Qlt_bool (Qabs (slope [metric 3; metric 4; metric 5; metric 6])) _)%nat;
    [reflexivity |].
  destruct (Qlt_bool (Qabs (slope [metric 4; metric 5; metric 6; metric 7])) _)%nat;
    reflexivity.
Qed.

(** C6, as the monitor of section 4.4 has it: [query()] answers
    not-converged while fewer than [w] values were recorded since the last
    reset, and from then on answers converged exactly when the least-squares
    slope of the last [w] recorded values is below the threshold in absolute
    value.  With window size 4, threshold 10^-6, a cap of at least 7
    iterations and a run whose first seven iterations update the fields under
    a metric that is constant after iteration 3, the level ends at some
    iteration from 4 to 7; it ends at iteration 7 exactly when none of the
    windows that end at iterations 4, 5 and 6 has such a slope. *)
Theorem monitor_query_and_contrived_level (m : Monitor) (vs : list RealType)
    (steps : nat → IterationOutcome) (metric : nat → RealType)
    (c : RealType) (cap : nat) :
  ((length vs < convergenceWindowSize m)%nat →
     query (recordAll vs (reset m)) = false)
  ∧ ((convergenceWindowSize m ≤ length vs)%nat →
     (query (recordAll vs (reset m)) = true ↔
      Qabs (slope (drop (length vs - convergenceWindowSize m)%nat vs))
        < convergenceThreshold m))
  ∧ ((∀ n, (1 ≤ n ≤ 7)%nat → steps n = FieldsUpdated (metric n)) →
     (∀ n, (3 < n)%nat → metric n == c) → (7 ≤ cap)%nat →
     ∃ last, runLevel 4 (1 # 1000000) cap steps = inr last
       ∧ (4 ≤ last ≤ 7)%nat
       ∧ (last = 7%nat ↔
          ∀ n, (4 ≤ n ≤ 6)%nat →
            ¬ Qabs (slope (windowAt metric n)) < 1 # 1000000)).
Proof.
  split; [apply query_recordAll |]. split; [apply query_recordAll |].
  intros Hs Hc Hcap.
  assert (Hr := runLevel_four (1 # 1000000) (cap - 7) metric).
  replace (7 + (cap - 7))%nat with cap in Hr by lia.
  rewrite (flat_window_converged metric c _ 7) in Hr by (done || lia).
  assert (Hsame : ∀ n, (n ≤ 7)%nat →
            runLevel 4 (1 # 1000000) cap (updating metric) = inr n →
            runLevel 4 (1 # 1000000) cap steps = inr n).
  { intros n Hn Hu. by apply (runLevel_ext_upto steps (updating metric) 7). }
  destruct (Qlt_bool (Qabs (slope (windowAt metric 4))) (1 # 1000000)) eqn:E4;
  [| destruct (Qlt_bool (Qabs (slope (windowAt metric 5))) (1 # 1000000)) eqn:E5;
   [| destruct (Qlt_bool (Qabs (slope (windowAt metric 6))) (1 # 1000000)) eqn:E6]].
  - exists 4%nat. split; [apply Hsame; [lia | done] |].
    split; [lia |]. split; [discriminate |]. intros Hno.
    apply Qlt_bool_iff in E4. destruct (Hno 4%nat); [lia | done].
  - exists 5%nat. split; [apply Hsame; [lia | done] |].
    split; [lia |]. split; [discriminate |]. intros Hno.
    apply Qlt_bool_iff in E5. destruct (Hno 5%nat); [lia | done].
  - exists 6%nat. split; [apply Hsame; [lia | done] |].
    split; [lia |]. split; [discriminate |]. intros Hno.
    apply Qlt_bool_iff in E6. destruct (Hno 6%nat); [lia | done].
  - exists 7%nat. split; [apply Hsame; [lia | done] |].
    split; [lia |]. split; [| done]. intros _ n Hn.
    apply Qlt_bool_false_iff.
    assert (n = 4 ∨ n = 5 ∨ n = 6)%nat as [-> | [-> | ->]] by lia; done.
Qed.

(** C6 as stated fails for the metric 1, 0, 0, 1, 1, 1, ...: it is constant
    after iteration 3, yet the window 1, 0, 0, 1 that ends at iteration 4 has
    slope zero, so the level ends at iteration 4. *)
Lemma contrived_level_ends_at_4 :
  (∀ n, (3 < n)%nat → contrivedMetric [1; 0; 0] 1 n = 1)
  ∧ slope (windowAt (contrivedMetric [1; 0; 0] 1) 4) == 0
  ∧ runLevel 4 (1 # 1000000) 20 (updating (contrivedMetric [1; 0; 0] 1)) = inr 4%nat
  ∧ runLevel 4 (1 # 1000000) 20 (updating (contrivedMetric [1; 0; 0] 1)) ≠ inr 7%nat.
Proof.
  split; [| split; [| split]].
  - intros n Hn. do 4 (destruct n as [|n]; [lia |]). reflexivity.
  - reflexivity.
  - reflexivity.
  - discriminate.
Qed.

(** The metric 3, 2, 1, 0, 0, 0, ... does end its level at iteration 7. *)
Lemma contrived_level_ends_at_7 :
  ∃ last,
    runLevel 4 (1 # 1000000) 20 (updating (contrivedMetric [3; 2; 1] 0)) = inr last
    ∧ (4 ≤ last ≤ 7)%nat
    ∧ (last = 7%nat ↔
       ∀ n, (4 ≤ n ≤ 6)%nat →
         ¬ Qabs (slope (windowAt (contrivedMetric [3; 2; 1] 0) n)) < 1 # 1000000).
Proof.
  apply (monitor_query_and_contrived_level (mkMonitor 4 (1 # 1000000) []) []
           (updating (contrivedMetric [3; 2; 1] 0))
           (contrivedMetric [3; 2; 1] 0) 0 20).
  - reflexivity.
  - intros n Hn. do 4 (destruct n as [|n]; [lia |]). reflexivity.
  - lia.
Defined.

Example contrived_level_3_2_1 :
  runLevel 4 (1 # 1000000) 20 (updating (contrivedMetric [3; 2; 1] 0)) = inr 7%nat
  ∧ runLevel 4 (1 # 1000000) 5 (updating (contrivedMetric [3; 2; 1] 0)) = inr 5%nat
  ∧ runLevel 4 (1 # 1000000) 20
      (λ n, if (n =? 2)%nat then BothUpdatesZero 2 else updating (contrivedMetric [3; 2; 1] 0) n)
    = inr 2%nat
  ∧ runLevel 4 (1 # 1000000) 20
      (λ n, if (n =? 6)%nat then Failed NumericError else updating (contrivedMetric [3; 2; 1] 0) n)
    = inl NumericError.
Proof. by repeat split. Qed.

End SyNProps.
